(** * OnlyOne print pipeline: canvas composer and curved-text renderer

    A shallow embedding of [utils/canvas_composer.py], [utils/font_renderer.py]
    and the parts of [config_printful.py] they read, with the properties the
    specification states about them.

    Conventions of the embedding.
    - Python [int] is [Z].  [a // b] is [Z.div] (floor), [int(x)] truncates
      toward zero.
    - The composer's float expressions ([canvas_w * p / 100],
      [target_width * (h / w)]) are read in exact arithmetic: [int] of a
      quotient of integers is [Z.quot].  Binary64 rounding is not modelled.
    - The renderer's float expressions (pi, sin, cos) are read over [R].
    - A Python [dict] is a [gmap]; the file store is a [gmap] from paths.
    - An exception is the [Raise] branch of [result]; a [try/except
      Exception] block is a [match] on it. *)

From Stdlib Require Import ZArith Lia Reals Lra String Ascii List.
From stdpp Require Import gmap strings pretty.

Local Open Scope string_scope.
Local Open Scope Z_scope.

(** ** Python exceptions and fallible computations *)

Inductive exn : Set :=
| KeyError
| ZeroDivisionError
| ValueError
| OSError
| UnidentifiedImageError.

Inductive result (A : Type) : Type :=
| Ok (a : A)
| Raise (e : exn).

Arguments Ok {A} a.
Arguments Raise {A} e.

#[global] Instance result_ret : MRet result := fun A a => Ok a.
#[global] Instance result_bind : MBind result :=
  fun A B f m => match m with Ok a => f a | Raise e => Raise e end.

Definition is_ok {A} (r : result A) : bool :=
  match r with Ok _ => true | Raise _ => false end.

(** [d[k]] on a dict: [KeyError] when the key is missing. *)
Definition getitem {V} (d : gmap string V) (k : string) : result V :=
  match d !! k with Some v => Ok v | None => Raise KeyError end.

(** [int(a / b)] for integers [a], [b]: the true quotient truncated toward
    zero; [ZeroDivisionError] when [b] is zero. *)
Definition int_truediv (a b : Z) : result Z :=
  if b =? 0 then Raise ZeroDivisionError else Ok (Z.quot a b).

(** ** config_printful.py *)

Record CanvasTemplate : Set := {
  width : Z;
  height : Z;
  dpi : Z;
  safe_margin : Z
}.

Definition main_template : CanvasTemplate :=
  {| width := 3600; height := 4800; dpi := 300; safe_margin := 75 |}.
Definition sleeve_template : CanvasTemplate :=
  {| width := 900; height := 4200; dpi := 300; safe_margin := 75 |}.

Definition CANVAS_TEMPLATES : gmap string CanvasTemplate :=
  <["main" := main_template]> (<["sleeve" := sleeve_template]> ∅).

(** A layout rule is the dict of one element: [width_percent] or
    [height_percent], and [top_percent]. *)
Abbreviation Rule := (gmap string Z).

Definition rule_front_main_image : Rule :=
  <["width_percent" := 45]> (<["top_percent" := 20]> ∅).
Definition rule_front_title : Rule :=
  <["width_percent" := 60]> (<["top_percent" := 55]> ∅).
Definition rule_front_wordmark : Rule :=
  <["width_percent" := 25]> (<["top_percent" := 75]> ∅).
Definition rule_back_main_image : Rule :=
  <["width_percent" := 80]> (<["top_percent" := 50]> ∅).
Definition rule_sleeve_logo : Rule :=
  <["height_percent" := 25]> (<["top_percent" := 50]> ∅).

Definition LAYOUT_CONFIG : gmap string (gmap string Rule) :=
  <["front" := <["main_image" := rule_front_main_image]>
               (<["title" := rule_front_title]>
               (<["wordmark" := rule_front_wordmark]> ∅))]>
  (<["back" := <["main_image" := rule_back_main_image]> ∅]>
  (<["sleeve" := <["logo" := rule_sleeve_logo]> ∅]> ∅)).

(** ** Rasters

    A PIL image carries a mode and a size; its pixel content is kept as the
    term of raster operations that produced it. *)

Inductive Mode : Set := RGBA | RGB | Grey | Palette.

Definition Color : Set := (Z * Z * Z * Z)%type.

Inductive Pixels : Type :=
| Blank (fill : Color)
    (* Image.new(mode, size, fill) *)
| Raw (id : N)
    (* pixel data decoded from a file *)
| ToRGBA (p : Pixels)
    (* convert('RGBA') of another mode *)
| Lanczos (p : Pixels) (sw sh w h : Z)
    (* resize of a sw x sh raster to w x h *)
| Paste (dst src : Pixels) (w h x y : Z)
    (* paste of a w x h raster at (x, y), masked by its own alpha *)
| GlyphTile (font : string) (size : Z) (char : N) (fill : Color)
    (* one character drawn, anchored mm, in a 2*size square tile *)
| Rotated (p : Pixels) (degrees : R)
    (* rotate, bicubic, about the tile centre *)
| AlphaComposite (dst src : Pixels) (x y : Z).
    (* alpha_composite of a tile at (x, y) *)

Record Image : Type := {
  im_mode : Mode;
  im_width : Z;
  im_height : Z;
  im_data : Pixels
}.

(** The fill of every fresh canvas: white, alpha 0. *)
Definition transparent : Color := (255, 255, 255, 0).

Definition im_size (im : Image) : Z * Z := (im_width im, im_height im).

(** [Image.new(mode, size, fill)]: PIL refuses a negative dimension. *)
Definition pil_new (mode : Mode) (size : Z * Z) (fill : Color) : result Image :=
  let '(w, h) := size in
  if (w <? 0) || (h <? 0) then Raise ValueError
  else Ok {| im_mode := mode; im_width := w; im_height := h; im_data := Blank fill |}.

(** [im.convert('RGBA')]. *)
Definition pil_convert_rgba (im : Image) : Image :=
  match im_mode im with
  | RGBA => im
  | _ => {| im_mode := RGBA; im_width := im_width im; im_height := im_height im;
            im_data := ToRGBA (im_data im) |}
  end.

(** [im.resize((w, h), LANCZOS)]: PIL raises [ValueError] unless both target
    dimensions are positive. *)
Definition pil_resize (im : Image) (size : Z * Z) : result Image :=
  let '(w, h) := size in
  if (w <? 1) || (h <? 1) then Raise ValueError
  else Ok {| im_mode := im_mode im; im_width := w; im_height := h;
             im_data := Lanczos (im_data im) (im_width im) (im_height im) w h |}.

(** [canvas.paste(elem, pos, elem)]: the canvas keeps its mode and size. *)
Definition pil_paste (canvas elem : Image) (pos : Z * Z) : Image :=
  {| im_mode := im_mode canvas;
     im_width := im_width canvas;
     im_height := im_height canvas;
     im_data := Paste (im_data canvas) (im_data elem)
                      (im_width elem) (im_height elem) (fst pos) (snd pos) |}.

(** The elements pasted on a canvas, bottom first: content, size, position. *)
Fixpoint layers (p : Pixels) : list (Pixels * (Z * Z) * (Z * Z)) :=
  match p with
  | Paste dst src w h x y => layers dst ++ [(src, (w, h), (x, y))]
  | _ => []
  end.

(** ** Files, paths and the environment

    The store maps a path to what a reader finds there.  Directories are
    not tracked: whether [os.makedirs] and [Image.save] succeed at a path
    (permissions, disk space, a file in the way) is read from the
    environment. *)

Inductive File : Type :=
| ImageFile (im : Image)
    (* decodable by Image.open *)
| FontFile (name : string) (metrics : Z -> N -> Z)
    (* a TrueType face: font.getbbox(char)[2] at a size, per character *)
| Unreadable.
    (* present, but neither of the above: corrupt, a directory, ... *)

Abbreviation Store := (gmap string File).

Record Env : Type := {
  makedirs_ok : string -> bool;
  save_ok : string -> bool
}.

Definition os_path_exists (fs : Store) (path : string) : bool :=
  match fs !! path with Some _ => true | None => false end.

Definition is_sep (c : ascii) : bool := Ascii.eqb c "/"%char.

Definition starts_with_sep (s : string) : bool :=
  match s with
  | String c _ => is_sep c
  | EmptyString => false
  end.

Fixpoint ends_with_sep (s : string) : bool :=
  match s with
  | EmptyString => false
  | String c EmptyString => is_sep c
  | String _ r => ends_with_sep r
  end.

(** [os.path.join(a, b)] (posixpath). *)
Definition os_path_join (a b : string) : string :=
  if starts_with_sep b then b
  else if String.eqb a "" || ends_with_sep a then a +:+ b
  else a +:+ "/" +:+ b.

Fixpoint drop_to_sep (l : list ascii) : list ascii :=
  match l with
  | [] => []
  | c :: r => if is_sep c then l else drop_to_sep r
  end.

Fixpoint strip_seps (l : list ascii) : list ascii :=
  match l with
  | [] => []
  | c :: r => if is_sep c then strip_seps r else l
  end.

(** [os.path.dirname(p)] (posixpath): the part up to the last separator,
    with trailing separators removed unless it consists of separators. *)
Definition os_path_dirname (p : string) : string :=
  let head := drop_to_sep (rev (list_ascii_of_string p)) in
  let stripped := strip_seps head in
  string_of_list_ascii (rev (match stripped with [] => head | _ => stripped end)).

(** [os.makedirs(p, exist_ok=True)]. *)
Definition os_makedirs (env : Env) (p : string) : result unit :=
  if String.eqb p "" then Raise OSError
  else if makedirs_ok env p then Ok tt
  else Raise OSError.

(** [Image.open(path)]. *)
Definition pil_open (fs : Store) (path : string) : result Image :=
  match fs !! path with
  | Some (ImageFile im) => Ok im
  | Some _ => Raise UnidentifiedImageError
  | None => Raise OSError
  end.

(** [im.save(path, 'PNG', optimize=True)]: a failed save leaves the store
    as it was. *)
Definition pil_save (env : Env) (fs : Store) (im : Image) (path : string)
    : result Store :=
  if save_ok env path then Ok (<[path := ImageFile im]> fs)
  else Raise OSError.

(** ** CanvasComposer: geometry *)

Module CanvasComposer.

(** [calculate_position], lines 18-51. *)
Definition calculate_position (canvas_size element_size : Z * Z)
    (position_config : Rule) (alignment : string) : Z * Z :=
  let '(canvas_w, canvas_h) := canvas_size in
  let '(elem_w, elem_h) := element_size in
  let y :=
    match position_config !! "top_percent" with
    | Some top_percent => Z.quot (canvas_h * top_percent) 100
    | None => (canvas_h - elem_h) / 2
    end in
  let x :=
    if String.eqb alignment "center" then (canvas_w - elem_w) / 2
    else if String.eqb alignment "left" then Z.quot canvas_w 10
    else if String.eqb alignment "right" then Z.quot (canvas_w * 9) 10 - elem_w
    else (canvas_w - elem_w) / 2 in
  (x, y).

(** [resize_maintaining_aspect], lines 53-84. *)
Definition resize_maintaining_aspect (image : Image) (target_config : Rule)
    (canvas_size : Z * Z) : result Image :=
  let '(canvas_w, canvas_h) := canvas_size in
  match target_config !! "width_percent" with
  | Some width_percent =>
      let target_width := Z.quot (canvas_w * width_percent) 100 in
      (* aspect_ratio = image.height / image.width *)
      target_height ← int_truediv (target_width * im_height image) (im_width image);
      pil_resize image (target_width, target_height)
  | None =>
      match target_config !! "height_percent" with
      | Some height_percent =>
          let target_height := Z.quot (canvas_h * height_percent) 100 in
          (* aspect_ratio = image.width / image.height *)
          target_width ← int_truediv (target_height * im_width image) (im_height image);
          pil_resize image (target_width, target_height)
      | None => Ok image
      end
  end.

(** [apply_safe_margins], lines 86-108. *)
Definition apply_safe_margins (position element_size canvas_size : Z * Z)
    (margin : Z) : Z * Z :=
  let '(x, y) := position in
  let '(elem_w, elem_h) := element_size in
  let '(canvas_w, canvas_h) := canvas_size in
  let x := Z.max margin (Z.min x (canvas_w - elem_w - margin)) in
  let y := Z.max margin (Z.min y (canvas_h - elem_h - margin)) in
  (x, y).

(** The block repeated for every element (lines 137-148, 155-166, 173-184,
    224-235, 276-287): open, convert, look the rule up, resize, position,
    clamp, paste. *)
Definition place (fs : Store) (path placement element : string)
    (canvas : Image) (canvas_size : Z * Z) (margin : Z) : result Image :=
  img ← pil_open fs path;
  let img := pil_convert_rgba img in
  section ← getitem LAYOUT_CONFIG placement;
  config ← getitem section element;
  resized ← resize_maintaining_aspect img config canvas_size;
  let pos := calculate_position canvas_size (im_size resized) config "center" in
  let pos := apply_safe_margins pos (im_size resized) canvas_size margin in
  Ok (pil_paste canvas resized pos).

(** Lines 126-187 of [compose_front]: the canvas and its three optional
    elements, artwork first. *)
Definition front_canvas (fs : Store)
    (main_image_path title_image_path wordmark_image_path : string)
    : result Image :=
  template ← getitem CANVAS_TEMPLATES "main";
  let canvas_size := (width template, height template) in
  let margin := safe_margin template in
  canvas ← pil_new RGBA canvas_size transparent;
  canvas ← (if os_path_exists fs main_image_path
            then place fs main_image_path "front" "main_image" canvas canvas_size margin
            else Ok canvas);
  canvas ← (if os_path_exists fs title_image_path
            then place fs title_image_path "front" "title" canvas canvas_size margin
            else Ok canvas);
  canvas ← (if os_path_exists fs wordmark_image_path
            then place fs wordmark_image_path "front" "wordmark" canvas canvas_size margin
            else Ok canvas);
  Ok canvas.

(** Lines 190-191, 242-243, 294-295: create the directory, save the PNG. *)
Definition save_canvas (env : Env) (fs : Store) (canvas : Image)
    (output_path : string) : result Store :=
  _ ← os_makedirs env (os_path_dirname output_path);
  pil_save env fs canvas output_path.

(** The [try] block of [compose_front], lines 124-194. *)
Definition compose_front_try (env : Env) (fs : Store)
    (main_image_path title_image_path wordmark_image_path output_path : string)
    : result Store :=
  canvas ← front_canvas fs main_image_path title_image_path wordmark_image_path;
  save_canvas env fs canvas output_path.

(** [compose_front], lines 110-198: success flag and the store left behind. *)
Definition compose_front (env : Env) (fs : Store)
    (main_image_path title_image_path wordmark_image_path output_path : string)
    : bool * Store :=
  match compose_front_try env fs main_image_path title_image_path
          wordmark_image_path output_path with
  | Ok fs' => (true, fs')
  | Raise _ => (false, fs)
  end.

(** The canvas of [compose_back] (lines 213-239) and of [compose_sleeve]
    (lines 265-291), which differ in the template and the rule: one
    required element; [None] is the early [return False]. *)
Definition single_canvas (fs : Store)
    (template_name placement element image_path : string)
    : result (option Image) :=
  template ← getitem CANVAS_TEMPLATES template_name;
  let canvas_size := (width template, height template) in
  let margin := safe_margin template in
  canvas ← pil_new RGBA canvas_size transparent;
  if os_path_exists fs image_path then
    canvas ← place fs image_path placement element canvas canvas_size margin;
    Ok (Some canvas)
  else Ok None.

Definition compose_single_try (env : Env) (fs : Store)
    (template_name placement element image_path output_path : string)
    : result (option Store) :=
  canvas ← single_canvas fs template_name placement element image_path;
  match canvas with
  | Some canvas => fs' ← save_canvas env fs canvas output_path; Ok (Some fs')
  | None => Ok None
  end.

Definition compose_single (env : Env) (fs : Store)
    (template_name placement element image_path output_path : string)
    : bool * Store :=
  match compose_single_try env fs template_name placement element
          image_path output_path with
  | Ok (Some fs') => (true, fs')
  | Ok None => (false, fs)
  | Raise _ => (false, fs)
  end.

(** [compose_back], lines 200-250. *)
Definition compose_back (env : Env) (fs : Store)
    (main_image_path output_path : string) : bool * Store :=
  compose_single env fs "main" "back" "main_image" main_image_path output_path.

(** [compose_sleeve], lines 252-302. *)
Definition compose_sleeve (env : Env) (fs : Store)
    (logo_image_path output_path : string) : bool * Store :=
  compose_single env fs "sleeve" "sleeve" "logo" logo_image_path output_path.

(** The result dict of [create_all_variants_for_product]. *)
Abbreviation Results := (gmap string (option string)).

Definition results_init : Results :=
  <["front_light" := None]> (<["front_dark" := None]> (<["back" := None]>
  (<["sleeve_light" := None]> (<["sleeve_dark" := None]> ∅)))).

(** The keys of the result dict. *)
Definition five_keys : list string :=
  ["front_light"; "front_dark"; "back"; "sleeve_light"; "sleeve_dark"].

(** [asset_urls.get(k)] when it is truthy: a non-empty string. *)
Definition get_truthy (asset_urls : gmap string (option string)) (k : string)
    : option string :=
  match asset_urls !! k with
  | Some (Some s) => if String.eqb s "" then None else Some s
  | _ => None
  end.

(** [if success: results[key] = path]. *)
Definition record_success (key path : string) (run : bool * Store)
    (results : Results) : Results * Store :=
  let '(success, fs) := run in
  ((if success then <[key := Some path]> results else results), fs).

(** Step 1, lines 336-345. *)
Definition step_front_light (env : Env) (slug main_image_path : string)
    (asset_urls : gmap string (option string)) (product_dir : string)
    (st : Results * Store) : Results * Store :=
  let '(results, fs) := st in
  match get_truthy asset_urls "title_dark", get_truthy asset_urls "wordmark_dark" with
  | Some title, Some wordmark =>
      let front_light_path := os_path_join product_dir (slug +:+ "_front_light.png") in
      record_success "front_light" front_light_path
        (compose_front env fs main_image_path title wordmark front_light_path) results
  | _, _ => (results, fs)
  end.

(** Step 2, lines 348-357. *)
Definition step_front_dark (env : Env) (slug main_image_path : string)
    (asset_urls : gmap string (option string)) (product_dir : string)
    (st : Results * Store) : Results * Store :=
  let '(results, fs) := st in
  match get_truthy asset_urls "title_light", get_truthy asset_urls "wordmark_light" with
  | Some title, Some wordmark =>
      let front_dark_path := os_path_join product_dir (slug +:+ "_front_dark.png") in
      record_success "front_dark" front_dark_path
        (compose_front env fs main_image_path title wordmark front_dark_path) results
  | _, _ => (results, fs)
  end.

(** Step 3, lines 360-363. *)
Definition step_back (env : Env) (slug main_image_path product_dir : string)
    (st : Results * Store) : Results * Store :=
  let '(results, fs) := st in
  let back_path := os_path_join product_dir (slug +:+ "_back.png") in
  record_success "back" back_path (compose_back env fs main_image_path back_path) results.

(** Step 4, lines 366-370. *)
Definition step_sleeve_dark (env : Env) (slug : string)
    (asset_urls : gmap string (option string)) (product_dir : string)
    (st : Results * Store) : Results * Store :=
  let '(results, fs) := st in
  match get_truthy asset_urls "logo_dark" with
  | Some logo =>
      let sleeve_dark_path := os_path_join product_dir (slug +:+ "_sleeve_dark.png") in
      record_success "sleeve_dark" sleeve_dark_path
        (compose_sleeve env fs logo sleeve_dark_path) results
  | None => (results, fs)
  end.

(** Step 5, lines 373-377. *)
Definition step_sleeve_light (env : Env) (slug : string)
    (asset_urls : gmap string (option string)) (product_dir : string)
    (st : Results * Store) : Results * Store :=
  let '(results, fs) := st in
  match get_truthy asset_urls "logo_light" with
  | Some logo =>
      let sleeve_light_path := os_path_join product_dir (slug +:+ "_sleeve_light.png") in
      record_success "sleeve_light" sleeve_light_path
        (compose_sleeve env fs logo sleeve_light_path) results
  | None => (results, fs)
  end.

(** The [try] block of [create_all_variants_for_product], lines 334-383.
    Nothing in it raises: each composition catches its own exceptions. *)
Definition create_all_variants_try (env : Env) (slug main_image_path : string)
    (asset_urls : gmap string (option string)) (product_dir : string)
    (fs : Store) : Results * Store :=
  let st := (results_init, fs) in
  let st := step_front_light env slug main_image_path asset_urls product_dir st in
  let st := step_front_dark env slug main_image_path asset_urls product_dir st in
  let st := step_back env slug main_image_path product_dir st in
  let st := step_sleeve_dark env slug asset_urls product_dir st in
  let st := step_sleeve_light env slug asset_urls product_dir st in
  st.

(** [create_all_variants_for_product], lines 304-387.  The product
    directory is created before the [try]; an error there propagates. *)
Definition create_all_variants_for_product (env : Env) (fs : Store)
    (slug main_image_path : string) (asset_urls : gmap string (option string))
    (output_dir : string) : result Results * Store :=
  let product_dir := os_path_join output_dir slug in
  match os_makedirs env product_dir with
  | Raise e => (Raise e, fs)
  | Ok _ =>
      let '(results, fs') :=
        create_all_variants_try env slug main_image_path asset_urls product_dir fs in
      (Ok results, fs')
  end.


(** The file at [path] is an image that the rule can resize. *)
Definition usable (fs : Store) (path : string) (config : Rule)
    (canvas_size : Z * Z) : Prop :=
  exists im, fs !! path = Some (ImageFile im)
    /\ is_ok (resize_maintaining_aspect (pil_convert_rgba im) config canvas_size) = true.


End CanvasComposer.

(** ** The five attempts, as a list

    A second reading of the [try] block of
    [create_all_variants_for_product]: each composition either saves a
    canvas at its output path and records the path under its key, or leaves
    results and store alone. *)

Module Attempts.
Import CanvasComposer.

(** Whether the directory of [out] can be made and [out] written. *)
Definition can_save (env : Env) (out : string) : bool :=
  is_ok (os_makedirs env (os_path_dirname out)) && save_ok env out.

(** The canvas [compose_front] saves, if it returns true. *)
Definition front_outcome (env : Env) (fs : Store)
    (main title wordmark out : string) : option Image :=
  match front_canvas fs main title wordmark with
  | Ok canvas => if can_save env out then Some canvas else None
  | Raise _ => None
  end.

(** The canvas [compose_back] or [compose_sleeve] saves, if it returns true. *)
Definition single_outcome (env : Env) (fs : Store)
    (template_name placement element path out : string) : option Image :=
  match single_canvas fs template_name placement element path with
  | Ok (Some canvas) => if can_save env out then Some canvas else None
  | _ => None
  end.

Record Attempt : Type := {
  at_key : string;
  at_path : string;
  at_outcome : Store -> option Image
}.

Definition run_attempt (a : Attempt) (st : Results * Store) : Results * Store :=
  let '(results, fs) := st in
  match at_outcome a fs with
  | Some canvas =>
      (<[at_key a := Some (at_path a)]> results,
       <[at_path a := ImageFile canvas]> fs)
  | None => (results, fs)
  end.

Fixpoint run_attempts (l : list Attempt) (st : Results * Store) : Results * Store :=
  match l with
  | [] => st
  | a :: rest => run_attempts rest (run_attempt a st)
  end.

Section Product.

Variable env : Env.
Variables slug main : string.
Variable asset_urls : gmap string (option string).
Variable product_dir : string.

Definition output_path (suffix : string) : string :=
  os_path_join product_dir (slug +:+ suffix).

Definition attempt_front (key title_key wordmark_key suffix : string) : Attempt :=
  {| at_key := key;
     at_path := output_path suffix;
     at_outcome := fun fs =>
       match get_truthy asset_urls title_key, get_truthy asset_urls wordmark_key with
       | Some title, Some wordmark =>
           front_outcome env fs main title wordmark (output_path suffix)
       | _, _ => None
       end |}.

Definition attempt_back : Attempt :=
  {| at_key := "back";
     at_path := output_path "_back.png";
     at_outcome := fun fs =>
       single_outcome env fs "main" "back" "main_image" main (output_path "_back.png") |}.

Definition attempt_sleeve (key logo_key suffix : string) : Attempt :=
  {| at_key := key;
     at_path := output_path suffix;
     at_outcome := fun fs =>
       match get_truthy asset_urls logo_key with
       | Some logo =>
           single_outcome env fs "sleeve" "sleeve" "logo" logo (output_path suffix)
       | None => None
       end |}.

Definition attempts : list Attempt :=
  [ attempt_front "front_light" "title_dark" "wordmark_dark" "_front_light.png";
    attempt_front "front_dark" "title_light" "wordmark_light" "_front_dark.png";
    attempt_back;
    attempt_sleeve "sleeve_dark" "logo_dark" "_sleeve_dark.png";
    attempt_sleeve "sleeve_light" "logo_light" "_sleeve_light.png" ].

(** The files a run may read: the artwork and every asset path given. *)
Definition input_paths : list string :=
  main :: omap (get_truthy asset_urls)
            ["title_dark"; "wordmark_dark"; "title_light"; "wordmark_light";
             "logo_dark"; "logo_light"].

(** The files a run may write. *)
Definition output_paths : list string :=
  [ output_path "_front_light.png"; output_path "_front_dark.png";
    output_path "_back.png"; output_path "_sleeve_dark.png";
    output_path "_sleeve_light.png" ].

End Product.

Section Reads.

(** The paths a run reads. *)
Variable inputs : list string.

(** Two stores that read the same at every input. *)
Definition agree (fs fs' : Store) : Prop :=
  forall q, q ∈ inputs -> fs !! q = fs' !! q.

(** An outcome that depends on the store through the inputs only. *)
Definition local (o : Store -> option Image) : Prop :=
  forall fs fs', agree fs fs' -> o fs = o fs'.

(** Attempts that write distinct files and read the inputs only. *)
Definition well_formed (l : list Attempt) : Prop :=
  NoDup (map at_path l) /\ Forall (fun a => local (at_outcome a)) l.

(** No attempt writes a file that the run reads. *)
Definition apart (l : list Attempt) : Prop :=
  Forall (fun a => at_path a ∉ inputs) l.

End Reads.

End Attempts.

(** ** font_renderer.py

    A text is its sequence of Unicode code points.  A loaded font is what
    the renderer reads of it: [font.getbbox(char)[2]] per character. *)

Record Font : Type := {
  font_name : string;
  getbbox_right : N -> Z
}.

(** Python's [a / b] on floats, over [R]: [ZeroDivisionError] on a zero
    divisor. *)
Definition py_div (a b : R) : result R :=
  if Req_dec_T b 0 then Raise ZeroDivisionError else Ok (a / b)%R.

(** [int(x)] of a float: truncation toward zero. *)
Definition py_int (x : R) : Z :=
  if Rle_dec 0 x then Int_part x else - Int_part (- x).

(** [math.degrees]. *)
Definition degrees (a : R) : R := (a * 180 / PI)%R.

(** [img.alpha_composite(tile, dest)]: the target keeps its mode and size. *)
Definition pil_alpha_composite (img : Image) (tile : Pixels) (dest : Z * Z) : Image :=
  {| im_mode := im_mode img;
     im_width := im_width img;
     im_height := im_height img;
     im_data := AlphaComposite (im_data img) tile (fst dest) (snd dest) |}.

(** One character on the raster: the face it was drawn in, the character,
    the rotation of its tile in degrees, where the tile was composited. *)
Record Glyph : Type := {
  g_font : string;
  g_char : N;
  g_degrees : R;
  g_dest : Z * Z
}.

(** The tiles composited on a raster, first drawn first. *)
Fixpoint glyphs (p : Pixels) : list Glyph :=
  match p with
  | AlphaComposite dst (Rotated (GlyphTile f _ c _) d) x y =>
      glyphs dst ++ [{| g_font := f; g_char := c; g_degrees := d; g_dest := (x, y) |}]
  | _ => []
  end.

(** config_printful.py, lines 100-117 and 92-95. *)
Definition ASSETS_DIR : string := "assets".
Definition FONTS_DIR : string := os_path_join ASSETS_DIR "fonts".
Definition LIBRE_BODONI_FONT_regular : string :=
  os_path_join (os_path_join (os_path_join FONTS_DIR "Libre_Bodoni") "static")
               "LibreBodoni-Regular.ttf".
Definition LIBRE_BODONI_FONT_curve : R := (- (60 / 100))%R.
(** [CONTRAST_COLORS]: '#111111' and '#FFFFFF' read as RGB, alpha 255. *)
Definition dark_text : Color := (17, 17, 17, 255).
Definition light_text : Color := (255, 255, 255, 255).

Module FontRenderer.

Section Renderer.

(** [ImageFont.load_default()], PIL's built-in face. *)
Variable load_default : Font.

(** [utils.text_utils.generate_kebab_slug]: it rests on [unicodedata]'s
    tables and the renderer uses its result only as a file-name stem. *)
Variable generate_kebab_slug : list N -> string.

(** [ImageFont.truetype(font_path, font_size)]. *)
Definition truetype (fs : Store) (font_path : string) (font_size : Z) : result Font :=
  match fs !! font_path with
  | Some (FontFile name metrics) =>
      if font_size <=? 0 then Raise ValueError
      else Ok {| font_name := name; getbbox_right := metrics font_size |}
  | Some _ => Raise OSError
  | None => Raise OSError
  end.

(** Lines 33-38: the font, or the built-in one when loading raises. *)
Definition load_font (fs : Store) (font_path : string) (font_size : Z) : Font :=
  match truetype fs font_path font_size with
  | Ok font => font
  | Raise _ => load_default
  end.

(** Line 41: [sum(font.getbbox(char)[2] for char in text)]. *)
Definition text_width (font : Font) (text : list N) : Z :=
  foldr Z.add 0 (map (getbbox_right font) text).

(** Line 42: the divisor of the radius. *)
Definition radius_divisor (curve_strength : R) : R :=
  if Rgt_dec (Rabs curve_strength) 0
  then (2 * PI * Rabs curve_strength)%R
  else (1 / 100)%R.

(** One iteration of the loop, lines 48-63. *)
Definition draw_char (font : Font) (font_size : Z) (color : Color)
    (center_x center_y : Z) (radius curve_strength : R)
    (st : R * Image) (char : N) : result (R * Image) :=
  let '(current_x, img) := st in
  let char_width := IZR (getbbox_right font char) in
  angle ← py_div (current_x + char_width / 2)%R radius;
  let x := (IZR center_x + radius * sin angle)%R in
  let y := (IZR center_y + (radius * (1 - cos angle))
                           * (if Rlt_dec curve_strength 0 then -1 else 1))%R in
  char_img ← pil_new RGBA (font_size * 2, font_size * 2) transparent;
  let tile := GlyphTile (font_name font) font_size char color in
  let rotated := Rotated tile (degrees angle) in
  let img := pil_alpha_composite img rotated
               (py_int (x - IZR font_size), py_int (y - IZR font_size)) in
  Ok ((current_x + char_width)%R, img).

(** The loop, line 47. *)
Fixpoint draw_chars (font : Font) (font_size : Z) (color : Color)
    (center_x center_y : Z) (radius curve_strength : R)
    (st : R * Image) (text : list N) : result (R * Image) :=
  match text with
  | [] => Ok st
  | char :: rest =>
      st' ← draw_char font font_size color center_x center_y radius curve_strength st char;
      draw_chars font font_size color center_x center_y radius curve_strength st' rest
  end.

(** What one iteration composites, read off lines 48-61. *)
Definition glyph_at (font : Font) (font_size center_x center_y : Z)
    (radius curve_strength : R) (current_x : R) (char : N) : Glyph :=
  let char_width := IZR (getbbox_right font char) in
  let angle := ((current_x + char_width / 2) / radius)%R in
  let x := (IZR center_x + radius * sin angle)%R in
  let y := (IZR center_y + (radius * (1 - cos angle))
                           * (if Rlt_dec curve_strength 0 then -1 else 1))%R in
  {| g_font := font_name font;
     g_char := char;
     g_degrees := degrees angle;
     g_dest := (py_int (x - IZR font_size), py_int (y - IZR font_size)) |}.

(** What the loop composites, from the running offset [current_x] on. *)
Fixpoint run_glyphs (font : Font) (font_size center_x center_y : Z)
    (radius curve_strength : R) (current_x : R) (text : list N) : list Glyph :=
  match text with
  | [] => []
  | char :: rest =>
      glyph_at font font_size center_x center_y radius curve_strength current_x char
      :: run_glyphs font font_size center_x center_y radius curve_strength
           (current_x + IZR (getbbox_right font char))%R rest
  end.

(** [draw_curved_text], lines 10-65. *)
Definition draw_curved_text (fs : Store) (text : list N) (font_path : string)
    (font_size : Z) (image_size : Z * Z) (curve_strength : R) (color : Color)
    : result Image :=
  let '(w, h) := image_size in
  let center_x := w / 2 in
  let center_y := h / 2 + 50 in
  let font := load_font fs font_path font_size in
  let text_width := text_width font text in
  radius ← py_div (IZR text_width) (radius_divisor curve_strength);
  let current_x := (- IZR text_width / 2)%R in
  img ← pil_new RGBA (w, h) transparent;
  st ← draw_chars font font_size color center_x center_y radius curve_strength
         (current_x, img) text;
  Ok (snd st).

(** The dict [render_title_with_libre_bodoni] returns: [dark] and [light]
    always, [title] and [slug] on success only. *)
Record TitleResult : Type := {
  dark : option string;
  light : option string;
  title : option (list N);
  slug : option string
}.

Definition no_title : TitleResult :=
  {| dark := None; light := None; title := None; slug := None |}.

(** [render_title_with_libre_bodoni], lines 67-130.  The output directory
    is created before the [try]; the store keeps what was saved before an
    exception. *)
Definition render_title_with_libre_bodoni (env : Env) (fs : Store)
    (title_text : list N) (output_dir : string) : result TitleResult * Store :=
  let font_path := LIBRE_BODONI_FONT_regular in
  let font_size := 180 in
  let curve_strength := LIBRE_BODONI_FONT_curve in
  let slug_text := generate_kebab_slug title_text in
  match os_makedirs env output_dir with
  | Raise e => (Raise e, fs)
  | Ok _ =>
    if negb (os_path_exists fs font_path) then (Ok no_title, fs)
    else
    match draw_curved_text fs title_text font_path font_size (2400, 800)
            curve_strength dark_text with
    | Raise _ => (Ok no_title, fs)
    | Ok img_dark =>
    match draw_curved_text fs title_text font_path font_size (2400, 800)
            curve_strength light_text with
    | Raise _ => (Ok no_title, fs)
    | Ok img_light =>
    let dark_path := os_path_join output_dir (slug_text +:+ "_title_dark.png") in
    let light_path := os_path_join output_dir (slug_text +:+ "_title_light.png") in
    match pil_save env fs img_dark dark_path with
    | Raise _ => (Ok no_title, fs)
    | Ok fs1 =>
    match pil_save env fs1 img_light light_path with
    | Raise _ => (Ok no_title, fs1)
    | Ok fs2 =>
        (Ok {| dark := Some dark_path; light := Some light_path;
               title := Some title_text; slug := Some slug_text |}, fs2)
    end end end end
  end.

End Renderer.

End FontRenderer.

(** ** The arc, as the specification words it

    Radius from the total advance width, and for the i-th character the
    offset from the centre of the string, the angle, the position and the
    rotation. *)

Module ArcSpec.

Section Arc.

Variable font : Font.
Variable text : list N.
Variable curvature : R.
Variables center_x center_y font_size : Z.

Definition advance (char : N) : R := IZR (getbbox_right font char).

Definition total_width : R := IZR (FontRenderer.text_width font text).

Definition radius : R := (total_width / (2 * PI * Rabs curvature))%R.

(** The advance widths of the characters before the i-th, counted from the
    centre of the string. *)
Definition offset (i : nat) : R :=
  (- total_width / 2 + IZR (FontRenderer.text_width font (take i text)))%R.

Definition angle (i : nat) (char : N) : R :=
  ((offset i + advance char / 2) / radius)%R.

Definition x (i : nat) (char : N) : R :=
  (IZR center_x + radius * sin (angle i char))%R.

Definition y (i : nat) (char : N) : R :=
  if Rlt_dec curvature 0
  then (IZR center_y - radius * (1 - cos (angle i char)))%R
  else (IZR center_y + radius * (1 - cos (angle i char)))%R.


End Arc.

End ArcSpec.


(** ** Layers and the safe area *)

(** A pasted element: content, size, position. *)
Abbreviation Layer := (Pixels * (Z * Z) * (Z * Z))%type.

Definition layer_w (l : Layer) : Z := fst (snd (fst l)).
Definition layer_h (l : Layer) : Z := snd (snd (fst l)).
Definition layer_x (l : Layer) : Z := fst (snd l).
Definition layer_y (l : Layer) : Z := snd (snd l).

(** The layer starts inside the margins, ends before the right margin,
    and ends before the bottom margin if it is short enough to. *)
Definition safe_across (canvas_w canvas_h margin : Z) (l : Layer) : Prop :=
  margin <= layer_x l
  /\ layer_x l + layer_w l <= canvas_w - margin
  /\ margin <= layer_y l
  /\ (layer_h l <= canvas_h - 2 * margin -> layer_y l + layer_h l <= canvas_h - margin).

(** The layer starts inside the margins, ends before the bottom margin,
    and ends before the right margin if it is narrow enough to. *)
Definition safe_down (canvas_w canvas_h margin : Z) (l : Layer) : Prop :=
  margin <= layer_x l
  /\ (layer_w l <= canvas_w - 2 * margin -> layer_x l + layer_w l <= canvas_w - margin)
  /\ margin <= layer_y l
  /\ layer_y l + layer_h l <= canvas_h - margin.

(** ** validate_composition (canvas_composer.py, lines 389-442)

    The messages of the report are kept as data: which issue, which
    warning, with the values the message prints. *)

Module Validation.

Inductive Issue : Type :=
| FileNotExisting
    (* "File non esistente" *)
| WrongDimensions (actual expected : Z * Z)
    (* "Dimensioni {img.size}, attese {expected_size}" *)
| ValidationError (e : exn).
    (* "Errore validazione: {e}" *)

Inductive Warning : Type :=
| ModeNotRGBA (mode : Mode)
    (* "Modalita {img.mode}, consigliata RGBA" *)
| LargeFile (file_size_mb : R).
    (* "File grande: ... MB" *)

Record Report : Type := {
  valid : bool;
  issues : list Issue;
  warnings : list Warning;
  file_size_mb : option R
}.

Definition size_eqb (a b : Z * Z) : bool :=
  (fst a =? fst b) && (snd a =? snd b).

Definition mode_is_rgba (m : Mode) : bool :=
  match m with RGBA => true | _ => false end.

(** The [except] branch, lines 438-440: what the report held so far, made
    invalid, with one more issue. *)
Definition failed (r : Report) (e : exn) : Report :=
  {| valid := false;
     issues := issues r ++ [ValidationError e];
     warnings := warnings r;
     file_size_mb := file_size_mb r |}.

Section Validate.

(** [os.path.getsize]. *)
Variable getsize : string -> result Z.

Definition validate_composition (fs : Store) (image_path canvas_type : string)
    : Report :=
  let result := {| valid := true; issues := []; warnings := []; file_size_mb := None |} in
  if negb (os_path_exists fs image_path) then
    {| valid := false; issues := [FileNotExisting]; warnings := [];
       file_size_mb := None |}
  else
  match pil_open fs image_path with
  | Raise e => failed result e
  | Ok img =>
  match getitem CANVAS_TEMPLATES canvas_type with
  | Raise e => failed result e
  | Ok template =>
    let expected_size := (width template, height template) in
    let result :=
      if size_eqb (im_size img) expected_size then result
      else {| valid := false;
              issues := issues result ++ [WrongDimensions (im_size img) expected_size];
              warnings := warnings result;
              file_size_mb := file_size_mb result |} in
    let result :=
      if mode_is_rgba (im_mode img) then result
      else {| valid := valid result;
              issues := issues result;
              warnings := warnings result ++ [ModeNotRGBA (im_mode img)];
              file_size_mb := file_size_mb result |} in
    match getsize image_path with
    | Raise e => failed result e
    | Ok file_size =>
        let mb := (IZR file_size / (1024 * 1024))%R in
        let result :=
          {| valid := valid result; issues := issues result;
             warnings := warnings result; file_size_mb := Some mb |} in
        if file_size >? 50 * 1024 * 1024 then
          {| valid := valid result; issues := issues result;
             warnings := warnings result ++ [LargeFile mb];
             file_size_mb := file_size_mb result |}
        else result
    end
  end
  end.

End Validate.

End Validation.

(** ** Title files (font_renderer.py, lines 266-302) *)

Module TitleFiles.

(** [get_title_file_paths]. *)
Definition get_title_file_paths (product_slug output_dir : string) : string * string :=
  (os_path_join output_dir (product_slug +:+ "_title_dark.png"),
   os_path_join output_dir (product_slug +:+ "_title_light.png")).

(** The dict [verify_title_files_exist] returns. *)
Record Existence : Type := {
  dark_exists : bool;
  light_exists : bool;
  dark_path : string;
  light_path : string;
  both_exist : bool
}.

(** [verify_title_files_exist]. *)
Definition verify_title_files_exist (fs : Store) (product_slug output_dir : string)
    : Existence :=
  let '(dark_path, light_path) := get_title_file_paths product_slug output_dir in
  {| dark_exists := os_path_exists fs dark_path;
     light_exists := os_path_exists fs light_path;
     dark_path := dark_path;
     light_path := light_path;
     both_exist := os_path_exists fs dark_path && os_path_exists fs light_path |}.

End TitleFiles.

(** ** text_utils.py: slugs

    Texts are sequences of code points, as in the renderer.  A loop that
    Python runs until a test fails is run for at most [fuel] rounds, and
    returns nothing when they do not suffice. *)

Module TextUtils.

Local Open Scope N_scope.

(** A literal as code points. *)
Definition codes (s : string) : list N := map N_of_ascii (list_ascii_of_string s).

(** What [\s] in a [str] pattern and [str.strip()] take for whitespace. *)
Definition is_space (c : N) : bool :=
  ((9 <=? c) && (c <=? 13)) || ((28 <=? c) && (c <=? 32))
  || (c =? 133) || (c =? 160) || (c =? 5760)
  || ((8192 <=? c) && (c <=? 8202))
  || (c =? 8232) || (c =? 8233) || (c =? 8239) || (c =? 8287) || (c =? 12288).

(** [[a-z]] and [[0-9]]. *)
Definition is_lower (c : N) : bool := (97 <=? c) && (c <=? 122).
Definition is_digit (c : N) : bool := (48 <=? c) && (c <=? 57).

Definition hyphen : N := 45.
Definition is_hyphen (c : N) : bool := c =? hyphen.

(** The characters of a slug, [[a-z0-9-]], and its letters and digits. *)
Definition slug_char (c : N) : bool := is_lower c || is_digit c || is_hyphen c.
Definition alnum (c : N) : bool := is_lower c || is_digit c.

(** [s.startswith(prefix)] and [s.endswith(suffix)]. *)
Fixpoint startswith (s prefix : list N) {struct prefix} : bool :=
  match prefix, s with
  | [], _ => true
  | p :: prefix', c :: s' => (c =? p) && startswith s' prefix'
  | _ :: _, [] => false
  end.

Definition endswith (s suffix : list N) : bool := startswith (rev s) (rev suffix).

(** [sub in s]. *)
Fixpoint contains (s sub : list N) : bool :=
  startswith s sub
  || match s with
     | [] => false
     | _ :: rest => contains rest sub
     end.

(** [s.rsplit(sep, 1)[0]]: [s] up to its last [sep], all of [s] without
    one. *)
Fixpoint rsplit1_head (sep : N) (s : list N) : list N :=
  match s with
  | [] => []
  | c :: rest =>
      if contains rest [sep] then c :: rsplit1_head sep rest
      else if c =? sep then [] else c :: rest
  end.

(** [re.sub(r'C+', rep, s)] for a character class [C]: every maximal run
    of characters of the class becomes [rep]. *)
Fixpoint sub_runs (class : N -> bool) (rep : list N) (s : list N) : list N :=
  match s with
  | [] => []
  | c :: rest =>
      if class c then
        match rest with
        | c' :: _ => if class c' then sub_runs class rep rest
                     else rep ++ sub_runs class rep rest
        | [] => rep
        end
      else c :: sub_runs class rep rest
  end.

(** [s.lstrip(chars)], [s.rstrip(chars)], [s.strip(chars)]. *)
Fixpoint lstrip (chars : N -> bool) (s : list N) : list N :=
  match s with
  | [] => []
  | c :: rest => if chars c then lstrip chars rest else s
  end.

Definition rstrip (chars : N -> bool) (s : list N) : list N :=
  rev (lstrip chars (rev s)).

Definition strip (chars : N -> bool) (s : list N) : list N :=
  rstrip chars (lstrip chars s).

(** Line 86. *)
Definition articles : list (list N) :=
  map codes ["il "; "la "; "lo "; "gli "; "le "; "un "; "una "; "uno "].

(** Lines 87-90: the first article the name starts with is cut off. *)
Fixpoint strip_article (name : list N) (articles : list (list N)) : list N :=
  match articles with
  | [] => name
  | article :: rest =>
      if startswith name article then drop (length article) name
      else strip_article name rest
  end.

Section Unicode.

(** [unicodedata.normalize('NFD', _)], [unicodedata.category(_) == 'Mn']
    and [str.lower] read the Unicode tables. *)
Variable normalize_NFD : list N -> list N.
Variable category_is_Mn : N -> bool.
Variable lower : list N -> list N.

(** [remove_accents], lines 53-59. *)
Definition remove_accents (text : list N) : list N :=
  List.filter (fun char => negb (category_is_Mn char)) (normalize_NFD text).

(** [generate_kebab_slug], lines 61-107. *)
Definition generate_kebab_slug (filename : list N) : list N :=
  let name := filename in
  let name := if contains name (codes ".") then rsplit1_head 46 name else name in
  let name := remove_accents name in
  let name := lower name in
  let name := strip_article name articles in
  let name := sub_runs is_space (codes " ") name in
  let name := List.filter (fun c => is_lower c || is_digit c || is_space c) name in
  let slug := sub_runs is_space (codes "-") (strip is_space name) in
  let slug := sub_runs is_hyphen (codes "-") slug in
  let slug := strip is_hyphen slug in
  slug.

(** Lines 75-90 alone: the name as it stands before the regular
    expressions. *)
Definition prepared (filename : list N) : list N :=
  let name := filename in
  let name := if contains name (codes ".") then rsplit1_head 46 name else name in
  let name := remove_accents name in
  let name := lower name in
  strip_article name articles.

End Unicode.

(** [validate_slug], lines 148-184.  The messages are kept as data. *)
Inductive Issue : Type := TooShort | BadCharacters | DoubleHyphen | EdgeHyphen.
Inductive Warning : Type := TooLong.

Record Report : Type := {
  valid : bool;
  slug : list N;
  issues : list Issue;
  warnings : list Warning
}.

Definition add_issue (result : Report) (issue : Issue) : Report :=
  {| valid := false; slug := slug result;
     issues := issues result ++ [issue]; warnings := warnings result |}.

Definition add_warning (result : Report) (warning : Warning) : Report :=
  {| valid := valid result; slug := slug result;
     issues := issues result; warnings := warnings result ++ [warning] |}.

(** [re.match(r'^[a-z0-9-]+$', slug)]: one or more of the characters, up
    to the end of the string or to a newline that ends it. *)
Definition match_slug_pattern (slug : list N) : bool :=
  let body := if endswith slug [10] then removelast slug else slug in
  match body with
  | [] => false
  | _ => forallb (fun c => is_lower c || is_digit c || is_hyphen c) body
  end.

Definition validate_slug (slug : list N) : Report :=
  let result := {| valid := true; slug := slug; issues := []; warnings := [] |} in
  let result :=
    if (length slug <? 3)%nat then add_issue result TooShort
    else if (50 <? length slug)%nat then add_warning result TooLong
    else result in
  let result :=
    if negb (match_slug_pattern slug) then add_issue result BadCharacters else result in
  let result :=
    if contains slug (codes "--") then add_issue result DoubleHyphen else result in
  let result :=
    if startswith slug (codes "-") || endswith slug (codes "-")
    then add_issue result EdgeHyphen else result in
  result.

(** [f"{base_slug}-{counter}"]. *)
Definition numbered (base_slug : list N) (counter : N) : list N :=
  base_slug ++ codes "-" ++ codes (pretty counter).

(** The loop of lines 203-205, for at most [fuel] rounds: the counter it
    stops at. *)
Fixpoint free_counter (existing_slugs : list (list N)) (base_slug : list N)
    (fuel : nat) (counter : N) : option N :=
  match fuel with
  | O => None
  | S fuel =>
      if bool_decide (numbered base_slug counter ∈ existing_slugs)
      then free_counter existing_slugs base_slug fuel (counter + 1)
      else Some counter
  end.

Section UniqueSlug.

Variable normalize_NFD : list N -> list N.
Variable category_is_Mn : N -> bool.
Variable lower : list N -> list N.

(** [generate_unique_slug], lines 186-207, its loop bounded by [fuel]. *)
Definition generate_unique_slug (fuel : nat) (filename : list N)
    (existing_slugs : list (list N)) : option (list N) :=
  let base_slug := generate_kebab_slug normalize_NFD category_is_Mn lower filename in
  if bool_decide (base_slug ∈ existing_slugs) then
    counter ← free_counter existing_slugs base_slug fuel 2;
    Some (numbered base_slug counter)
  else Some base_slug.

End UniqueSlug.

(** The dict [batch_generate_slugs] returns, lines 219-229. *)
Record Duplicate : Type := {
  dup_filename : list N;
  dup_base_slug : list N;
  dup_unique_slug : list N
}.

Record Invalid : Type := {
  inv_filename : list N;
  inv_issues : list Issue
}.

Record Stats : Type := {
  stats_total : Z;
  stats_valid : Z;
  stats_duplicates : Z;
  stats_invalid : Z
}.

Record Batch : Type := {
  mappings : gmap (list N) (list N);
  duplicates_found : list Duplicate;
  invalid_slugs : list Invalid;
  stats : Stats
}.

Section BatchSlugs.

Variable normalize_NFD : list N -> list N.
Variable category_is_Mn : N -> bool.
Variable lower : list N -> list N.

(** One round of the loop of [batch_generate_slugs], lines 233-259. *)
Definition batch_step (fuel : nat) (state : Batch * list (list N))
    (filename : list N) : option (Batch * list (list N)) :=
  let '(result, existing_slugs) := state in
  slug ← generate_unique_slug normalize_NFD category_is_Mn lower fuel filename
            existing_slugs;
  let validation := validate_slug slug in
  if valid validation then
    let mappings' := <[filename := slug]> (mappings result) in
    let existing_slugs := (existing_slugs ++ [slug])%list in
    let valid' := (stats_valid (stats result) + 1)%Z in
    let base_slug := generate_kebab_slug normalize_NFD category_is_Mn lower filename in
    if bool_decide (slug <> base_slug) then
      Some ({| mappings := mappings';
               duplicates_found :=
                 (duplicates_found result
                  ++ [{| dup_filename := filename; dup_base_slug := base_slug;
                         dup_unique_slug := slug |}])%list;
               invalid_slugs := invalid_slugs result;
               stats := {| stats_total := stats_total (stats result);
                           stats_valid := valid';
                           stats_duplicates := (stats_duplicates (stats result) + 1)%Z;
                           stats_invalid := stats_invalid (stats result) |} |},
            existing_slugs)
    else
      Some ({| mappings := mappings';
               duplicates_found := duplicates_found result;
               invalid_slugs := invalid_slugs result;
               stats := {| stats_total := stats_total (stats result);
                           stats_valid := valid';
                           stats_duplicates := stats_duplicates (stats result);
                           stats_invalid := stats_invalid (stats result) |} |},
            existing_slugs)
  else
    Some ({| mappings := mappings result;
             duplicates_found := duplicates_found result;
             invalid_slugs :=
               (invalid_slugs result
                ++ [{| inv_filename := filename;
                       inv_issues := issues validation |}])%list;
             stats := {| stats_total := stats_total (stats result);
                         stats_valid := stats_valid (stats result);
                         stats_duplicates := stats_duplicates (stats result);
                         stats_invalid := (stats_invalid (stats result) + 1)%Z |} |},
          existing_slugs).

Fixpoint batch_loop (fuel : nat) (state : Batch * list (list N))
    (filenames : list (list N)) : option (Batch * list (list N)) :=
  match filenames with
  | [] => Some state
  | filename :: rest =>
      state' ← batch_step fuel state filename;
      batch_loop fuel state' rest
  end.

(** [batch_generate_slugs], lines 209-261, every loop of
    [generate_unique_slug] bounded by [fuel]. *)
Definition batch_generate_slugs (fuel : nat) (filenames : list (list N))
    : option Batch :=
  let result :=
    {| mappings := ∅; duplicates_found := []; invalid_slugs := [];
       stats := {| stats_total := Z.of_nat (length filenames); stats_valid := 0;
                   stats_duplicates := 0; stats_invalid := 0 |} |} in
  state ← batch_loop fuel (result, []) filenames;
  Some (fst state).

End BatchSlugs.

(** What the loop of [batch_generate_slugs] keeps true of its result and
    of the slugs handed out so far, after [done] file names. *)
Record batch_invariant (done : nat) (result : Batch) (existing_slugs : list (list N))
    : Prop := {
  kept_known : forall filename slug,
    mappings result !! filename = Some slug -> slug ∈ existing_slugs;
  kept_distinct : forall filename1 filename2 slug,
    mappings result !! filename1 = Some slug ->
    mappings result !! filename2 = Some slug -> filename1 = filename2;
  kept_valid : forall filename slug,
    mappings result !! filename = Some slug -> valid (validate_slug slug) = true;
  kept_count :
    (stats_valid (stats result) + stats_invalid (stats result) = Z.of_nat done)%Z;
  kept_parts :
    (0 <= stats_invalid (stats result))%Z
    /\ stats_invalid (stats result) = Z.of_nat (length (invalid_slugs result));
  kept_duplicates :
    (stats_duplicates (stats result) <= stats_valid (stats result))%Z
    /\ stats_duplicates (stats result) = Z.of_nat (length (duplicates_found result));
  kept_existing : (length existing_slugs <= done)%nat
}.

End TextUtils.

(** A text of ASCII characters as part of a path. *)
Definition path_of (text : list N) : string :=
  string_of_list_ascii (map ascii_of_N text).

(** ** A worked product

    The end-to-end scenario of the specification: a 2000 x 2000 artwork,
    2400 x 800 titles, 800 x 300 wordmarks and square logos, laid out on the
    two templates. *)

Module Scenario.

Definition raster (w h : Z) (id : N) : Image :=
  {| im_mode := RGBA; im_width := w; im_height := h; im_data := Raw id |}.

Definition artwork : Image := raster 2000 2000 1.

Definition artwork_path : string := "upscaled/cavallo-spettrale.png".

Definition assets : gmap string (option string) :=
  <["title_dark" := Some "artifacts/cavallo-spettrale_title_dark.png"]>
  (<["title_light" := Some "artifacts/cavallo-spettrale_title_light.png"]>
  (<["wordmark_dark" := Some "assets/wordmarks/too_dark.png"]>
  (<["wordmark_light" := Some "assets/wordmarks/too_light.png"]>
  (<["logo_dark" := Some "generate/logo_black.png"]>
  (<["logo_light" := None]> ∅))))).

Definition store : Store :=
  <[artwork_path := ImageFile artwork]>
  (<["artifacts/cavallo-spettrale_title_dark.png" := ImageFile (raster 2400 800 2)]>
  (<["artifacts/cavallo-spettrale_title_light.png" := ImageFile (raster 2400 800 3)]>
  (<["assets/wordmarks/too_dark.png" := ImageFile (raster 800 300 4)]>
  (<["assets/wordmarks/too_light.png" := ImageFile (raster 800 300 5)]>
  (<["generate/logo_black.png" := ImageFile (raster 600 600 6)]> ∅))))).

(** The same assets without the dark wordmark. *)
Definition assets_no_wordmark_dark : gmap string (option string) :=
  <["wordmark_dark" := None]> assets.


(** A face in which U+200B ZERO WIDTH SPACE has no advance and every other
    character advances by half the font size. *)
Definition bodoni_metrics (size : Z) (char : N) : Z :=
  if (char =? 8203)%N then 0 else size / 2.

Definition font_store : Store :=
  <[LIBRE_BODONI_FONT_regular := FontFile "LibreBodoni-Regular" bodoni_metrics]> ∅.

(** The font path holds something that is not a font. *)
Definition broken_font_store : Store :=
  <[LIBRE_BODONI_FONT_regular := Unreadable]> ∅.

(** PIL's built-in face, ten pixels a character. *)
Definition builtin_font : Font :=
  {| font_name := "default"; getbbox_right := fun _ => 10 |}.

(** A stand-in for [generate_kebab_slug]. *)
Definition slug_of (text : list N) : string := "cavallo-spettrale".

(** "Hi" *)
Definition hi : list N := [72%N; 105%N].

(** Every directory can be created and every file written. *)
Definition permissive : Env :=
  {| makedirs_ok := fun _ => true; save_ok := fun _ => true |}.

(** The product directory cannot be created (a regular file of that name
    is in the way, or the output directory is not writable); everything
    else can. *)
Definition product_dir_blocked : Env :=
  {| makedirs_ok := fun p => negb (String.eqb p "artifacts/cavallo-spettrale");
     save_ok := fun _ => true |}.

(** Unicode tables that leave a text alone: right for a text of
    lower-case ASCII letters, digits, spaces and punctuation. *)
Definition plain_NFD (text : list N) : list N := text.
Definition plain_is_Mn (char : N) : bool := false.
Definition plain_lower (text : list N) : list N := text.

End Scenario.

(** * Properties *)

(** ** Fallible computations *)

Lemma bind_Ok {A B} (f : A -> result B) (a : A) : (Ok a ≫= f) = f a.
Proof. reflexivity. Qed.

Lemma bind_Raise {A B} (f : A -> result B) (e : exn) : (Raise e ≫= f) = Raise e.
Proof. reflexivity. Qed.

Lemma bind_Ok_inv {A B} (f : A -> result B) (m : result A) (b : B) :
  (m ≫= f) = Ok b -> exists a, m = Ok a /\ f a = Ok b.
Proof. destruct m as [a|e]; [eauto | discriminate]. Qed.

Lemma int_truediv_Ok (a b : Z) : b <> 0 -> int_truediv a b = Ok (Z.quot a b).
Proof. intros Hb. unfold int_truediv. destruct (Z.eqb_spec b 0); [lia | reflexivity]. Qed.

Lemma pil_resize_Ok (im : Image) (w h : Z) :
  1 <= w -> 1 <= h ->
  pil_resize im (w, h) =
    Ok {| im_mode := im_mode im; im_width := w; im_height := h;
          im_data := Lanczos (im_data im) (im_width im) (im_height im) w h |}.
Proof.
  intros Hw Hh. unfold pil_resize.
  destruct (Z.ltb_spec w 1); [lia |]. destruct (Z.ltb_spec h 1); [lia |]. reflexivity.
Qed.

Lemma pil_resize_inv (im out : Image) (size : Z * Z) :
  pil_resize im size = Ok out ->
  im_mode out = im_mode im /\ im_size out = size /\ 1 <= fst size /\ 1 <= snd size.
Proof.
  destruct size as [w h]. unfold pil_resize.
  destruct (Z.ltb_spec w 1); [discriminate |]. destruct (Z.ltb_spec h 1); [discriminate |].
  cbn [orb]. intros [= <-]. cbn. auto.
Qed.

(** ** Geometry of the composer *)

Module ComposerGeometry.
Import CanvasComposer.



(** C1.  [apply_safe_margins] returns, on each axis, a coordinate that is at
    least the margin; when the element fits the safe area on that axis the
    far edge of the element stays at or before [canvas - margin]; when the
    element is larger than the safe area the coordinate is the margin. *)
Theorem apply_safe_margins_clamps (x y elem_w elem_h canvas_w canvas_h margin : Z) :
  let p := apply_safe_margins (x, y) (elem_w, elem_h) (canvas_w, canvas_h) margin in
  (margin <= fst p
   /\ (elem_w <= canvas_w - 2 * margin -> fst p + elem_w <= canvas_w - margin)
   /\ (canvas_w - 2 * margin < elem_w -> fst p = margin))
  /\
  (margin <= snd p
   /\ (elem_h <= canvas_h - 2 * margin -> snd p + elem_h <= canvas_h - margin)
   /\ (canvas_h - 2 * margin < elem_h -> snd p = margin)).
Proof.
  unfold apply_safe_margins. cbn [fst snd]. lia.
Qed.

(** The clamp on the end-to-end scenario: a 900 x 337 wordmark asked for at
    (3000, 4700) on the main canvas ends inside the safe area. *)
Lemma apply_safe_margins_clamps_witness :
  apply_safe_margins (3000, 4700) (900, 337) (3600, 4800) 75 = (2625, 4388)
  /\ 2625 + 900 <= 3600 - 75 /\ 4388 + 337 <= 4800 - 75.
Proof.
  pose proof (apply_safe_margins_clamps 3000 4700 900 337 3600 4800 75) as H.
  cbv zeta in H. destruct H as [(_ & Hx & _) (_ & Hy & _)].
  split; [reflexivity |].
  split; [apply Hx | apply Hy]; lia.
Defined.




End ComposerGeometry.

(** ** Compositions *)

Module ComposerOutputs.
Import CanvasComposer.

Tactic Notation "inv_bind" hyp(H) "as" ident(x) ident(Hx) :=
  apply bind_Ok_inv in H; destruct H as (x & Hx & H).

Lemma getitem_main : getitem CANVAS_TEMPLATES "main" = Ok main_template.
Proof. reflexivity. Qed.

Lemma getitem_sleeve : getitem CANVAS_TEMPLATES "sleeve" = Ok sleeve_template.
Proof. reflexivity. Qed.

Lemma getitem_inv {V} (d : gmap string V) (k : string) (v : V) :
  getitem d k = Ok v -> d !! k = Some v.
Proof. unfold getitem. destruct (d !! k); [intros [= ->]; reflexivity | discriminate]. Qed.

Lemma getitem_Some {V} (d : gmap string V) (k : string) (v : V) :
  d !! k = Some v -> getitem d k = Ok v.
Proof. intros H. unfold getitem. rewrite H. reflexivity. Qed.

Lemma pil_new_inv (mode : Mode) (size : Z * Z) (fill : Color) (im : Image) :
  pil_new mode size fill = Ok im ->
  im_mode im = mode /\ im_size im = size /\ im_data im = Blank fill.
Proof.
  destruct size as [w h]. unfold pil_new.
  destruct ((w <? 0) || (h <? 0)); [discriminate |]. intros [= <-]. auto.
Qed.

(** A paste leaves mode and size of the canvas alone and adds one layer. *)
Lemma pil_paste_frame (canvas elem : Image) (pos : Z * Z) :
  im_mode (pil_paste canvas elem pos) = im_mode canvas
  /\ im_size (pil_paste canvas elem pos) = im_size canvas.
Proof. split; reflexivity. Qed.

Lemma pil_paste_layers (canvas elem : Image) (pos : Z * Z) :
  layers (im_data (pil_paste canvas elem pos)) =
  (layers (im_data canvas) ++ [(im_data elem, im_size elem, pos)])%list.
Proof. destruct pos. reflexivity. Qed.

Lemma place_inv fs path placement element canvas canvas_size margin canvas' :
  place fs path placement element canvas canvas_size margin = Ok canvas' ->
  exists elem pos, canvas' = pil_paste canvas elem pos.
Proof.
  unfold place. intros H.
  inv_bind H as img Himg. inv_bind H as sec Hsec. inv_bind H as config Hconfig.
  inv_bind H as resized Hresized. injection H as <-. eauto.
Qed.

Lemma place_frame fs path placement element canvas canvas_size margin canvas' :
  place fs path placement element canvas canvas_size margin = Ok canvas' ->
  im_mode canvas' = im_mode canvas /\ im_size canvas' = im_size canvas.
Proof.
  intros H. apply place_inv in H as (elem & pos & ->). apply pil_paste_frame.
Qed.

Lemma place_optional_frame fs path placement element canvas canvas_size margin canvas' :
  (if os_path_exists fs path
   then place fs path placement element canvas canvas_size margin
   else Ok canvas) = Ok canvas' ->
  im_mode canvas' = im_mode canvas /\ im_size canvas' = im_size canvas.
Proof.
  destruct (os_path_exists fs path).
  - apply place_frame.
  - intros [= <-]. auto.
Qed.

Lemma front_canvas_frame fs main title wordmark canvas :
  front_canvas fs main title wordmark = Ok canvas ->
  im_mode canvas = RGBA /\ im_size canvas = (3600, 4800).
Proof.
  unfold front_canvas. rewrite getitem_main, bind_Ok. intros H.
  inv_bind H as c0 H0. inv_bind H as c1 H1. inv_bind H as c2 H2. inv_bind H as c3 H3.
  injection H as <-.
  apply pil_new_inv in H0 as (Hm & Hs & _).
  apply place_optional_frame in H1 as [Hm1 Hs1].
  apply place_optional_frame in H2 as [Hm2 Hs2].
  apply place_optional_frame in H3 as [Hm3 Hs3].
  split; [congruence |].
  rewrite Hs3, Hs2, Hs1, Hs. reflexivity.
Qed.

Lemma single_canvas_frame fs template_name placement element path canvas :
  single_canvas fs template_name placement element path = Ok (Some canvas) ->
  exists template, CANVAS_TEMPLATES !! template_name = Some template
    /\ im_mode canvas = RGBA
    /\ im_size canvas = (width template, height template).
Proof.
  unfold single_canvas. intros H.
  inv_bind H as template Ht. inv_bind H as c0 H0.
  apply getitem_inv in Ht. apply pil_new_inv in H0 as (Hm & Hs & _).
  destruct (os_path_exists fs path); [| discriminate].
  inv_bind H as c1 H1. injection H as <-.
  apply place_frame in H1 as [Hm1 Hs1].
  exists template. split; [assumption |]. split; congruence.
Qed.

Lemma save_canvas_inv env fs canvas output_path fs' :
  save_canvas env fs canvas output_path = Ok fs' ->
  fs' = <[output_path := ImageFile canvas]> fs.
Proof.
  unfold save_canvas, pil_save. intros H. inv_bind H as u Hu.
  destruct (save_ok env output_path); [| discriminate]. congruence.
Qed.


(** A successful composition saved its canvas at the output path. *)
Lemma compose_front_true env fs main title wordmark out fs' :
  compose_front env fs main title wordmark out = (true, fs') ->
  exists canvas, front_canvas fs main title wordmark = Ok canvas
    /\ fs' = <[out := ImageFile canvas]> fs.
Proof.
  unfold compose_front, compose_front_try.
  destruct (front_canvas fs main title wordmark) as [canvas|e]; [| discriminate].
  rewrite bind_Ok.
  destruct (save_canvas env fs canvas out) as [fs1|e] eqn:Hs; [| discriminate].
  intros [= <-]. apply save_canvas_inv in Hs. eauto.
Qed.

Lemma compose_single_true env fs template_name placement element path out fs' :
  compose_single env fs template_name placement element path out = (true, fs') ->
  exists canvas, single_canvas fs template_name placement element path = Ok (Some canvas)
    /\ fs' = <[out := ImageFile canvas]> fs.
Proof.
  unfold compose_single, compose_single_try.
  destruct (single_canvas fs template_name placement element path) as [[canvas|]|e];
    [| discriminate | discriminate].
  rewrite bind_Ok.
  destruct (save_canvas env fs canvas out) as [fs1|e] eqn:Hs; [| discriminate].
  rewrite bind_Ok. intros [= <-]. apply save_canvas_inv in Hs. eauto.
Qed.

(** C2.  Whenever [compose_front], [compose_back] or [compose_sleeve]
    returns true, the file at the output path is an RGBA raster of exactly
    the template's size: 3600 x 4800 for front and back, 900 x 4200 for the
    sleeve, whatever the input elements are. *)
Theorem composition_has_template_size (env : Env) (fs fs' : Store) (out : string) :
  (forall main title wordmark,
     compose_front env fs main title wordmark out = (true, fs') ->
     exists im, fs' !! out = Some (ImageFile im)
       /\ im_mode im = RGBA /\ im_size im = (3600, 4800))
  /\ (forall main,
     compose_back env fs main out = (true, fs') ->
     exists im, fs' !! out = Some (ImageFile im)
       /\ im_mode im = RGBA /\ im_size im = (3600, 4800))
  /\ (forall logo,
     compose_sleeve env fs logo out = (true, fs') ->
     exists im, fs' !! out = Some (ImageFile im)
       /\ im_mode im = RGBA /\ im_size im = (900, 4200)).
Proof.
  split; [| split].
  - intros main title wordmark H.
    apply compose_front_true in H as (canvas & Hc & ->).
    apply front_canvas_frame in Hc as [Hm Hs].
    exists canvas. rewrite lookup_insert_eq. auto.
  - intros main H. unfold compose_back in H.
    apply compose_single_true in H as (canvas & Hc & ->).
    apply single_canvas_frame in Hc as (template & Ht & Hm & Hs).
    replace (CANVAS_TEMPLATES !! "main") with (Some main_template) in Ht by reflexivity.
    injection Ht as <-.
    exists canvas. rewrite lookup_insert_eq. auto.
  - intros logo H. unfold compose_sleeve in H.
    apply compose_single_true in H as (canvas & Hc & ->).
    apply single_canvas_frame in Hc as (template & Ht & Hm & Hs).
    replace (CANVAS_TEMPLATES !! "sleeve") with (Some sleeve_template) in Ht by reflexivity.
    injection Ht as <-.
    exists canvas. rewrite lookup_insert_eq. auto.
Qed.

(** The front-light canvas of the worked product is written at 3600 x 4800. *)
Lemma composition_has_template_size_witness :
  let out := "artifacts/cavallo-spettrale/cavallo-spettrale_front_light.png" in
  exists im,
    snd (compose_front Scenario.permissive Scenario.store Scenario.artwork_path
           "artifacts/cavallo-spettrale_title_dark.png"
           "assets/wordmarks/too_dark.png" out) !! out = Some (ImageFile im)
    /\ im_mode im = RGBA /\ im_size im = (3600, 4800).
Proof.
  intros out.
  destruct (composition_has_template_size Scenario.permissive Scenario.store
              (snd (compose_front Scenario.permissive Scenario.store
                      Scenario.artwork_path
                      "artifacts/cavallo-spettrale_title_dark.png"
                      "assets/wordmarks/too_dark.png" out)) out) as [H _].
  apply (H Scenario.artwork_path "artifacts/cavallo-spettrale_title_dark.png"
           "assets/wordmarks/too_dark.png").
  vm_compute. reflexivity.
Defined.

(** *** Missing inputs *)



Lemma os_path_exists_false fs path : fs !! path = None -> os_path_exists fs path = false.
Proof. intros H. unfold os_path_exists. rewrite H. reflexivity. Qed.

Lemma os_path_exists_true fs path f : fs !! path = Some f -> os_path_exists fs path = true.
Proof. intros H. unfold os_path_exists. rewrite H. reflexivity. Qed.

Lemma pil_convert_rgba_size (im : Image) :
  im_width (pil_convert_rgba im) = im_width im
  /\ im_height (pil_convert_rgba im) = im_height im.
Proof. unfold pil_convert_rgba. destruct (im_mode im); split; reflexivity. Qed.

(** In numbers: the front artwork rule asks for a width of 1620 pixels, so
    an image is usable as front artwork when its width is positive and at
    most 1620 times its height (the resized height is then at least 1). *)
Lemma usable_front_artwork fs path im :
  fs !! path = Some (ImageFile im) ->
  0 < im_width im -> im_width im <= 1620 * im_height im ->
  usable fs path rule_front_main_image (3600, 4800).
Proof.
  intros Hfile Hw Hflat. exists im. split; [exact Hfile |].
  unfold resize_maintaining_aspect.
  replace (rule_front_main_image !! "width_percent") with (Some 45) by reflexivity.
  change (Z.quot (3600 * 45) 100) with 1620.
  destruct (pil_convert_rgba_size im) as [-> ->].
  rewrite int_truediv_Ok, bind_Ok by lia.
  rewrite pil_resize_Ok; [reflexivity | lia |].
  rewrite Z.quot_div_nonneg by lia.
  apply Z.div_le_lower_bound; lia.
Qed.





End ComposerOutputs.

(** ** The five variants of a product *)

Module ComposerVariants.
Import CanvasComposer Attempts ComposerOutputs.

(** *** Attempts in general *)

Section AttemptTheory.

(** The paths a run reads. *)
Variable inputs : list string.

Lemma agree_refl fs : agree inputs fs fs.
Proof. intros q _. reflexivity. Qed.

Lemma agree_trans fs1 fs2 fs3 :
  agree inputs fs1 fs2 -> agree inputs fs2 fs3 -> agree inputs fs1 fs3.
Proof. intros H12 H23 q Hq. rewrite (H12 q Hq). apply H23, Hq. Qed.

Lemma well_formed_tail a l : well_formed inputs (a :: l) -> well_formed inputs l.
Proof.
  intros [Hnd Hall]. split.
  - cbn [map] in Hnd. eapply NoDup_cons_1_2, Hnd.
  - eapply Forall_inv_tail, Hall.
Qed.

Lemma well_formed_head a l :
  well_formed inputs (a :: l) ->
  local inputs (at_outcome a) /\ (at_path a ∉ map at_path l).
Proof.
  intros [Hnd Hall]. apply Forall_inv in Hall.
  cbn [map] in Hnd. apply NoDup_cons_1_1 in Hnd. auto.
Qed.

(** One attempt touches its own output path only. *)
Lemma run_attempt_other a r fs q :
  q <> at_path a -> snd (run_attempt a (r, fs)) !! q = fs !! q.
Proof.
  intros Hq. unfold run_attempt. destruct (at_outcome a fs); cbn [snd].
  - apply lookup_insert_ne. congruence.
  - reflexivity.
Qed.

Lemma run_attempts_other l : forall r fs q,
  q ∉ map at_path l -> snd (run_attempts l (r, fs)) !! q = fs !! q.
Proof.
  induction l as [|a l IH]; intros r fs q Hq; [reflexivity |].
  cbn [run_attempts map] in *. apply not_elem_of_cons in Hq as [Hne Hq].
  destruct (run_attempt a (r, fs)) as [r1 fs1] eqn:Hrun.
  rewrite (IH r1 fs1 q Hq).
  change fs1 with (snd (r1, fs1)). rewrite <- Hrun. apply run_attempt_other, Hne.
Qed.

(** A run whose outputs are apart from its inputs leaves the inputs as
    they were. *)
Lemma run_attempts_agree l r fs :
  apart inputs l -> agree inputs fs (snd (run_attempts l (r, fs))).
Proof.
  intros Hapart q Hq. symmetry. apply run_attempts_other.
  intros Hin. apply list_elem_of_fmap in Hin as (a & -> & Ha).
  unfold apart in Hapart. rewrite Forall_forall in Hapart.
  apply (Hapart a Ha), Hq.
Qed.

(** The store after one attempt still agrees with the reference store on
    the inputs, when the final store of the run does. *)
Lemma run_attempt_keeps_agreement a l r fs0 fs :
  at_path a ∉ map at_path l ->
  agree inputs fs0 fs ->
  agree inputs fs0 (snd (run_attempts l (run_attempt a (r, fs)))) ->
  agree inputs fs0 (snd (run_attempt a (r, fs))).
Proof.
  intros Hfresh Hag Hfinal q Hq.
  destruct (decide (q = at_path a)) as [-> | Hne].
  - rewrite (Hfinal _ Hq).
    destruct (run_attempt a (r, fs)) as [r1 fs1]. cbn [snd].
    apply run_attempts_other, Hfresh.
  - rewrite run_attempt_other by exact Hne. apply Hag, Hq.
Qed.

(** What a run leaves at the output path of an attempt that succeeds. *)
Lemma run_attempts_written l : forall r fs0 fs a canvas,
  well_formed inputs l -> agree inputs fs0 fs ->
  agree inputs fs0 (snd (run_attempts l (r, fs))) ->
  a ∈ l -> at_outcome a fs0 = Some canvas ->
  snd (run_attempts l (r, fs)) !! at_path a = Some (ImageFile canvas).
Proof.
  induction l as [|a0 l IH]; intros r fs0 fs a canvas Hwf Hag Hfinal Hin Hout.
  - apply elem_of_nil in Hin. contradiction.
  - destruct (well_formed_head _ _ Hwf) as (Hloc & Hfresh).
    cbn [run_attempts] in *.
    pose proof (run_attempt_keeps_agreement a0 l r fs0 fs Hfresh Hag Hfinal) as Hag1.
    destruct (run_attempt a0 (r, fs)) as [r1 fs1] eqn:Hrun. cbn [snd] in Hag1.
    apply elem_of_cons in Hin as [-> | Hin].
    + rewrite (run_attempts_other l r1 fs1 _ Hfresh).
      unfold run_attempt in Hrun. rewrite <- (Hloc fs0 fs Hag), Hout in Hrun.
      injection Hrun as <- <-. apply lookup_insert_eq.
    + apply (IH r1 fs0 fs1 a canvas (well_formed_tail _ _ Hwf) Hag1 Hfinal Hin Hout).
Qed.

(** Running again on a store that already holds every canvas the run
    saves changes nothing, and records the same results. *)
Lemma run_attempts_replay l : forall r fs0 fs final,
  well_formed inputs l -> agree inputs fs0 fs -> agree inputs fs0 final ->
  (forall a canvas, a ∈ l -> at_outcome a fs0 = Some canvas ->
     final !! at_path a = Some (ImageFile canvas)) ->
  run_attempts l (r, final) = (fst (run_attempts l (r, fs)), final).
Proof.
  induction l as [|a0 l IH]; intros r fs0 fs final Hwf Hag Hfinal Hheld;
    [reflexivity |].
  destruct (well_formed_head _ _ Hwf) as (Hloc & Hfresh).
  cbn [run_attempts]. unfold run_attempt.
  rewrite <- (Hloc fs0 fs Hag), <- (Hloc fs0 final Hfinal).
  destruct (at_outcome a0 fs0) as [canvas|] eqn:Hout.
  - pose proof (Hheld a0 canvas (list_elem_of_here _ _) Hout) as Hp.
    rewrite (insert_id final (at_path a0) (ImageFile canvas) Hp).
    apply (IH _ fs0); [exact (well_formed_tail _ _ Hwf) | | exact Hfinal |].
    + intros q Hq. destruct (decide (q = at_path a0)) as [-> | Hne].
      * rewrite lookup_insert_eq, (Hfinal _ Hq). exact Hp.
      * rewrite lookup_insert_ne by congruence. apply Hag, Hq.
    + intros a c Ha. apply Hheld, list_elem_of_further, Ha.
  - apply (IH _ fs0); [exact (well_formed_tail _ _ Hwf) | exact Hag | exact Hfinal |].
    intros a c Ha. apply Hheld, list_elem_of_further, Ha.
Qed.

(** If the inputs read the same after a run as before it, running again
    from the store the run left gives the same results and the same store. *)
Lemma run_attempts_idempotent l r fs :
  well_formed inputs l ->
  agree inputs fs (snd (run_attempts l (r, fs))) ->
  run_attempts l (r, snd (run_attempts l (r, fs))) = run_attempts l (r, fs).
Proof.
  intros Hwf Hsame.
  rewrite (run_attempts_replay l r fs fs (snd (run_attempts l (r, fs))) Hwf).
  - destruct (run_attempts l (r, fs)); reflexivity.
  - apply agree_refl.
  - exact Hsame.
  - intros a canvas Ha Hout.
    apply (run_attempts_written l r fs fs a canvas Hwf (agree_refl fs) Hsame Ha Hout).
Qed.

End AttemptTheory.

(** *** The code's steps are the attempts *)

Lemma save_canvas_can_save env fs canvas out :
  save_canvas env fs canvas out =
  if can_save env out then Ok (<[out := ImageFile canvas]> fs) else Raise OSError.
Proof.
  unfold save_canvas, can_save, pil_save, os_makedirs.
  destruct (String.eqb (os_path_dirname out) ""); [reflexivity |].
  destruct (makedirs_ok env (os_path_dirname out)); [| reflexivity].
  rewrite bind_Ok. cbn [is_ok andb]. destruct (save_ok env out); reflexivity.
Qed.

Lemma compose_front_outcome env fs main title wordmark out :
  compose_front env fs main title wordmark out =
  match front_outcome env fs main title wordmark out with
  | Some canvas => (true, <[out := ImageFile canvas]> fs)
  | None => (false, fs)
  end.
Proof.
  unfold compose_front, compose_front_try, front_outcome.
  destruct (front_canvas fs main title wordmark) as [canvas|e]; [| reflexivity].
  rewrite bind_Ok, save_canvas_can_save.
  destruct (can_save env out); reflexivity.
Qed.

Lemma compose_single_outcome env fs template_name placement element path out :
  compose_single env fs template_name placement element path out =
  match single_outcome env fs template_name placement element path out with
  | Some canvas => (true, <[out := ImageFile canvas]> fs)
  | None => (false, fs)
  end.
Proof.
  unfold compose_single, compose_single_try, single_outcome.
  destruct (single_canvas fs template_name placement element path) as [[canvas|]|e];
    [| reflexivity | reflexivity].
  rewrite bind_Ok, save_canvas_can_save.
  destruct (can_save env out); reflexivity.
Qed.

Section Steps.

Variable env : Env.
Variables slug main : string.
Variable asset_urls : gmap string (option string).
Variable product_dir : string.

Lemma step_front_light_attempt st :
  step_front_light env slug main asset_urls product_dir st =
  run_attempt (attempt_front env slug main asset_urls product_dir
                 "front_light" "title_dark" "wordmark_dark" "_front_light.png") st.
Proof.
  destruct st as [results fs].
  unfold step_front_light, run_attempt, attempt_front, record_success, output_path.
  cbn [at_outcome at_key at_path].
  destruct (get_truthy asset_urls "title_dark") as [title|]; [| reflexivity].
  destruct (get_truthy asset_urls "wordmark_dark") as [wordmark|]; [| reflexivity].
  rewrite compose_front_outcome.
  destruct (front_outcome env fs main title wordmark _); reflexivity.
Qed.

Lemma step_front_dark_attempt st :
  step_front_dark env slug main asset_urls product_dir st =
  run_attempt (attempt_front env slug main asset_urls product_dir
                 "front_dark" "title_light" "wordmark_light" "_front_dark.png") st.
Proof.
  destruct st as [results fs].
  unfold step_front_dark, run_attempt, attempt_front, record_success, output_path.
  cbn [at_outcome at_key at_path].
  destruct (get_truthy asset_urls "title_light") as [title|]; [| reflexivity].
  destruct (get_truthy asset_urls "wordmark_light") as [wordmark|]; [| reflexivity].
  rewrite compose_front_outcome.
  destruct (front_outcome env fs main title wordmark _); reflexivity.
Qed.

Lemma step_back_attempt st :
  step_back env slug main product_dir st =
  run_attempt (attempt_back env slug main product_dir) st.
Proof.
  destruct st as [results fs].
  unfold step_back, run_attempt, attempt_back, record_success, output_path, compose_back.
  cbn [at_outcome at_key at_path].
  rewrite compose_single_outcome.
  destruct (single_outcome env fs _ _ _ main _); reflexivity.
Qed.

Lemma step_sleeve_dark_attempt st :
  step_sleeve_dark env slug asset_urls product_dir st =
  run_attempt (attempt_sleeve env slug asset_urls product_dir
                 "sleeve_dark" "logo_dark" "_sleeve_dark.png") st.
Proof.
  destruct st as [results fs].
  unfold step_sleeve_dark, run_attempt, attempt_sleeve, record_success, output_path,
    compose_sleeve.
  cbn [at_outcome at_key at_path].
  destruct (get_truthy asset_urls "logo_dark") as [logo|]; [| reflexivity].
  rewrite compose_single_outcome.
  destruct (single_outcome env fs _ _ _ logo _); reflexivity.
Qed.

Lemma step_sleeve_light_attempt st :
  step_sleeve_light env slug asset_urls product_dir st =
  run_attempt (attempt_sleeve env slug asset_urls product_dir
                 "sleeve_light" "logo_light" "_sleeve_light.png") st.
Proof.
  destruct st as [results fs].
  unfold step_sleeve_light, run_attempt, attempt_sleeve, record_success, output_path,
    compose_sleeve.
  cbn [at_outcome at_key at_path].
  destruct (get_truthy asset_urls "logo_light") as [logo|]; [| reflexivity].
  rewrite compose_single_outcome.
  destruct (single_outcome env fs _ _ _ logo _); reflexivity.
Qed.

Lemma create_all_variants_try_attempts fs :
  create_all_variants_try env slug main asset_urls product_dir fs =
  run_attempts (attempts env slug main asset_urls product_dir) (results_init, fs).
Proof.
  unfold create_all_variants_try, attempts. cbn [run_attempts].
  rewrite step_front_light_attempt, step_front_dark_attempt, step_back_attempt,
    step_sleeve_dark_attempt, step_sleeve_light_attempt.
  reflexivity.
Qed.

End Steps.

(** Membership in a list written out. *)
Ltac in_list := repeat first [apply list_elem_of_here | apply list_elem_of_further].

(** *** What a composition reads *)

Lemma place_if_exists_local fs fs' path placement element canvas canvas_size margin :
  fs !! path = fs' !! path ->
  (if os_path_exists fs path
   then place fs path placement element canvas canvas_size margin
   else Ok canvas) =
  (if os_path_exists fs' path
   then place fs' path placement element canvas canvas_size margin
   else Ok canvas).
Proof.
  intros H. unfold os_path_exists, place, pil_open. rewrite H. reflexivity.
Qed.

Lemma front_canvas_local fs fs' main title wordmark :
  fs !! main = fs' !! main -> fs !! title = fs' !! title ->
  fs !! wordmark = fs' !! wordmark ->
  front_canvas fs main title wordmark = front_canvas fs' main title wordmark.
Proof.
  intros Hm Ht Hw. unfold front_canvas.
  destruct (getitem CANVAS_TEMPLATES "main") as [template|e]; [| reflexivity].
  rewrite !bind_Ok.
  destruct (pil_new RGBA (width template, height template) transparent)
    as [c0|e]; [| reflexivity].
  rewrite !bind_Ok.
  rewrite (place_if_exists_local fs fs' main _ _ c0 _ _ Hm).
  destruct (if os_path_exists fs' main then _ else _) as [c1|e]; [| reflexivity].
  rewrite !bind_Ok.
  rewrite (place_if_exists_local fs fs' title _ _ c1 _ _ Ht).
  destruct (if os_path_exists fs' title then _ else _) as [c2|e]; [| reflexivity].
  rewrite !bind_Ok.
  rewrite (place_if_exists_local fs fs' wordmark _ _ c2 _ _ Hw).
  reflexivity.
Qed.

Lemma single_canvas_local fs fs' template_name placement element path :
  fs !! path = fs' !! path ->
  single_canvas fs template_name placement element path =
  single_canvas fs' template_name placement element path.
Proof.
  intros H. unfold single_canvas, os_path_exists, place, pil_open. rewrite H.
  reflexivity.
Qed.

(** *** Output paths *)

Lemma string_app_assoc (a b c : string) : (a +:+ b) +:+ c = a +:+ (b +:+ c).
Proof.
  induction a as [|x a IH]; [reflexivity |].
  change (String x ((a +:+ b) +:+ c) = String x (a +:+ (b +:+ c))).
  rewrite IH. reflexivity.
Qed.

Lemma starts_with_sep_underscore slug rest :
  starts_with_sep (slug +:+ String "_" rest) = starts_with_sep slug.
Proof. destruct slug; reflexivity. Qed.

(** All five output paths share one prefix and differ in the suffix. *)
Lemma output_path_prefix slug product_dir :
  exists pre, forall rest,
    output_path slug product_dir (String "_" rest) = pre +:+ String "_" rest.
Proof.
  unfold output_path, os_path_join.
  destruct (starts_with_sep slug) eqn:Hs.
  - exists slug. intros rest. rewrite starts_with_sep_underscore, Hs. reflexivity.
  - destruct (String.eqb product_dir "" || ends_with_sep product_dir).
    + exists (product_dir +:+ slug). intros rest.
      rewrite starts_with_sep_underscore, Hs, string_app_assoc. reflexivity.
    + exists (product_dir +:+ "/" +:+ slug). intros rest.
      rewrite starts_with_sep_underscore, Hs, !string_app_assoc. reflexivity.
Qed.

Lemma output_paths_NoDup slug product_dir : NoDup (output_paths slug product_dir).
Proof.
  destruct (output_path_prefix slug product_dir) as [pre Hpre].
  unfold output_paths. rewrite !Hpre.
  repeat (apply NoDup_cons_2;
    [ rewrite ?not_elem_of_cons; repeat split;
      try (intros H; apply String.app_inj in H; discriminate H);
      apply not_elem_of_nil
    | ]).
  apply NoDup_nil_2.
Qed.

Lemma attempts_paths env slug main asset_urls product_dir :
  map at_path (attempts env slug main asset_urls product_dir) =
  output_paths slug product_dir.
Proof. reflexivity. Qed.

Lemma get_truthy_input main asset_urls key path :
  key ∈ ["title_dark"; "wordmark_dark"; "title_light"; "wordmark_light";
         "logo_dark"; "logo_light"] ->
  get_truthy asset_urls key = Some path ->
  path ∈ input_paths main asset_urls.
Proof.
  intros Hkey Hget. unfold input_paths. apply list_elem_of_further.
  apply list_elem_of_omap. eauto.
Qed.

Lemma attempts_well_formed env slug main asset_urls product_dir :
  well_formed (input_paths main asset_urls)
    (attempts env slug main asset_urls product_dir).
Proof.
  assert (Hmain : main ∈ input_paths main asset_urls) by apply list_elem_of_here.
  split.
  - rewrite attempts_paths. apply output_paths_NoDup.
  - unfold attempts.
    repeat (apply Forall_cons; split); [| | | | | apply Forall_nil_2].
    + intros fs fs' Hag. cbn [attempt_front at_outcome].
      destruct (get_truthy asset_urls "title_dark") as [t|] eqn:Ht; [| reflexivity].
      destruct (get_truthy asset_urls "wordmark_dark") as [w|] eqn:Hw; [| reflexivity].
      unfold front_outcome. rewrite (front_canvas_local fs fs' main t w); [reflexivity | ..];
        apply Hag; [exact Hmain | |]; (eapply get_truthy_input; [| eassumption]; in_list).
    + intros fs fs' Hag. cbn [attempt_front at_outcome].
      destruct (get_truthy asset_urls "title_light") as [t|] eqn:Ht; [| reflexivity].
      destruct (get_truthy asset_urls "wordmark_light") as [w|] eqn:Hw; [| reflexivity].
      unfold front_outcome. rewrite (front_canvas_local fs fs' main t w); [reflexivity | ..];
        apply Hag; [exact Hmain | |]; (eapply get_truthy_input; [| eassumption]; in_list).
    + intros fs fs' Hag. cbn [attempt_back at_outcome]. unfold single_outcome.
      rewrite (single_canvas_local fs fs' _ _ _ main); [reflexivity |].
      apply Hag, Hmain.
    + intros fs fs' Hag. cbn [attempt_sleeve at_outcome].
      destruct (get_truthy asset_urls "logo_dark") as [l|] eqn:Hl; [| reflexivity].
      unfold single_outcome.
      rewrite (single_canvas_local fs fs' _ _ _ l); [reflexivity |].
      apply Hag. (eapply get_truthy_input; [| eassumption]; in_list).
    + intros fs fs' Hag. cbn [attempt_sleeve at_outcome].
      destruct (get_truthy asset_urls "logo_light") as [l|] eqn:Hl; [| reflexivity].
      unfold single_outcome.
      rewrite (single_canvas_local fs fs' _ _ _ l); [reflexivity |].
      apply Hag. (eapply get_truthy_input; [| eassumption]; in_list).
Qed.

Lemma attempts_apart env slug main asset_urls product_dir :
  (forall p, p ∈ input_paths main asset_urls -> p ∉ output_paths slug product_dir) ->
  apart (input_paths main asset_urls) (attempts env slug main asset_urls product_dir).
Proof.
  intros Hapart. apply Forall_forall. intros a Ha Hin. apply (Hapart _ Hin).
  rewrite <- (attempts_paths env slug main asset_urls product_dir).
  apply list_elem_of_In, in_map, list_elem_of_In, Ha.
Qed.

(** Inputs that are none of the run's output files read the same after
    the run. *)
Lemma inputs_apart_unchanged env fs slug main asset_urls output_dir :
  (forall p, p ∈ input_paths main asset_urls ->
             p ∉ output_paths slug (os_path_join output_dir slug)) ->
  forall p, p ∈ input_paths main asset_urls ->
    fs !! p =
    snd (create_all_variants_for_product env fs slug main asset_urls output_dir) !! p.
Proof.
  intros Hapart. unfold create_all_variants_for_product.
  destruct (os_makedirs env (os_path_join output_dir slug)) as [u|e];
    [| intros p _; reflexivity].
  rewrite create_all_variants_try_attempts.
  pose proof (run_attempts_agree _ _ results_init fs
                (attempts_apart env slug main asset_urls _ Hapart)) as Hag.
  destruct (run_attempts _ (results_init, fs)) as [results fs1]. exact Hag.
Qed.

(** C8.  [create_all_variants_for_product] is a function of its arguments
    and the store.  Invoked a second time on the store the first invocation
    left, with the artwork and asset files reading the same as before the
    first, it returns the same result map and leaves the same store: every
    output file is rewritten with the canvas it already holds. *)
Theorem rerun_is_idempotent (env : Env) (fs : Store) (slug main : string)
    (asset_urls : gmap string (option string)) (output_dir : string) :
  (forall p, p ∈ input_paths main asset_urls ->
     fs !! p =
     snd (create_all_variants_for_product env fs slug main asset_urls output_dir) !! p) ->
  create_all_variants_for_product env
    (snd (create_all_variants_for_product env fs slug main asset_urls output_dir))
    slug main asset_urls output_dir
  = create_all_variants_for_product env fs slug main asset_urls output_dir.
Proof.
  unfold create_all_variants_for_product.
  destruct (os_makedirs env (os_path_join output_dir slug)) as [u|e];
    [| reflexivity].
  rewrite (create_all_variants_try_attempts env slug main asset_urls _ fs).
  intros Hsame.
  pose proof (run_attempts_idempotent (input_paths main asset_urls) _ results_init fs
                (attempts_well_formed env slug main asset_urls
                   (os_path_join output_dir slug))) as Hidem.
  destruct (run_attempts _ (results_init, fs)) as [results fs1] eqn:Hrun.
  cbn [snd] in *. rewrite create_all_variants_try_attempts, (Hidem Hsame). reflexivity.
Qed.

(** *** Keys of the result map *)

Lemma run_attempt_key_ne a st k :
  k <> at_key a -> fst (run_attempt a st) !! k = fst st !! k.
Proof.
  intros Hk. destruct st as [r fs]. unfold run_attempt.
  destruct (at_outcome a fs); cbn [fst]; [| reflexivity].
  apply lookup_insert_ne. congruence.
Qed.

Lemma run_attempt_key a st :
  fst (run_attempt a st) !! at_key a =
  match at_outcome a (snd st) with
  | Some _ => Some (Some (at_path a))
  | None => fst st !! at_key a
  end.
Proof.
  destruct st as [r fs]. unfold run_attempt. cbn [snd].
  destruct (at_outcome a fs); cbn [fst]; [apply lookup_insert_eq | reflexivity].
Qed.

Lemma run_attempt_dom a st :
  at_key a ∈ dom (fst st) -> dom (fst (run_attempt a st)) = dom (fst st).
Proof.
  intros Hk. destruct st as [r fs]. unfold run_attempt.
  destruct (at_outcome a fs); cbn [fst] in *; [| reflexivity].
  rewrite dom_insert_L. apply subseteq_union_1_L, singleton_subseteq_l, Hk.
Qed.

Lemma run_attempts_dom l : forall st,
  Forall (fun a => at_key a ∈ dom (fst st)) l ->
  dom (fst (run_attempts l st)) = dom (fst st).
Proof.
  induction l as [|a l IH]; intros st Hall; [reflexivity |].
  cbn [run_attempts]. apply Forall_cons in Hall as [Ha Hall].
  rewrite IH; rewrite (run_attempt_dom a st Ha); [reflexivity | exact Hall].
Qed.

Lemma results_init_dom : dom results_init = list_to_set five_keys.
Proof.
  unfold results_init, five_keys. rewrite !dom_insert_L, dom_empty_L.
  cbn [list_to_set foldr]. reflexivity.
Qed.

(** Once the product directory exists the function returns a map, and
    the map has the five keys and no other. *)
Lemma create_all_variants_complete_map env fs slug main asset_urls output_dir :
  os_makedirs env (os_path_join output_dir slug) = Ok tt ->
  exists results fs',
    create_all_variants_for_product env fs slug main asset_urls output_dir
      = (Ok results, fs')
    /\ dom results = list_to_set five_keys.
Proof.
  intros Hdir. unfold create_all_variants_for_product. rewrite Hdir.
  rewrite create_all_variants_try_attempts.
  destruct (run_attempts _ (results_init, fs)) as [results fs'] eqn:Hrun.
  exists results, fs'. split; [reflexivity |].
  change results with (fst (results, fs')). rewrite <- Hrun.
  rewrite run_attempts_dom; cbn [fst]; [apply results_init_dom |].
  rewrite results_init_dom. unfold attempts, five_keys.
  repeat (apply Forall_cons; split;
    [cbn [at_key attempt_front attempt_back attempt_sleeve];
     apply elem_of_list_to_set; in_list |]).
  apply Forall_nil_2.
Qed.

(** The last entry: a missing or falsy [logo_light] leaves [sleeve_light]
    at [None], and nothing before it decides it. *)
Lemma sleeve_light_entry env fs slug main asset_urls output_dir :
  let product_dir := os_path_join output_dir slug in
  let sleeve_light_path := os_path_join product_dir (slug +:+ "_sleeve_light.png") in
  let st4 :=
    step_sleeve_dark env slug asset_urls product_dir
      (step_back env slug main product_dir
         (step_front_dark env slug main asset_urls product_dir
            (step_front_light env slug main asset_urls product_dir
               (results_init, fs)))) in
  os_makedirs env product_dir = Ok tt ->
  exists results fs',
    create_all_variants_for_product env fs slug main asset_urls output_dir
      = (Ok results, fs')
    /\ results !! "sleeve_light" =
        Some (match get_truthy asset_urls "logo_light" with
              | Some logo =>
                  if fst (compose_sleeve env (snd st4) logo sleeve_light_path)
                  then Some sleeve_light_path else None
              | None => None
              end).
Proof.
  cbv zeta. intros Hdir.
  unfold create_all_variants_for_product. rewrite Hdir.
  unfold create_all_variants_try.
  set (pd := os_path_join output_dir slug).
  set (st4 := step_sleeve_dark env slug asset_urls pd _).
  destruct (step_sleeve_light env slug asset_urls pd st4) as [results fs'] eqn:H5.
  exists results, fs'. split; [reflexivity |].
  change results with (fst (results, fs')). rewrite <- H5.
  rewrite step_sleeve_light_attempt.
  rewrite (run_attempt_key (attempt_sleeve env slug asset_urls pd
             "sleeve_light" "logo_light" "_sleeve_light.png")).
  cbn [at_outcome at_key at_path attempt_sleeve]. unfold output_path, compose_sleeve.
  assert (Hprev : fst st4 !! "sleeve_light" = Some None).
  { subst st4.
    rewrite step_sleeve_dark_attempt, run_attempt_key_ne by (cbn; discriminate).
    rewrite step_back_attempt, run_attempt_key_ne by (cbn; discriminate).
    rewrite step_front_dark_attempt, run_attempt_key_ne by (cbn; discriminate).
    rewrite step_front_light_attempt, run_attempt_key_ne by (cbn; discriminate).
    reflexivity. }
  rewrite Hprev.
  destruct (get_truthy asset_urls "logo_light") as [logo|]; [| reflexivity].
  rewrite compose_single_outcome.
  destruct (single_outcome env (snd st4) _ _ _ logo _); reflexivity.
Qed.

(** C7, at the failing input.  With the product directory impossible to
    create, [create_all_variants_for_product] returns no map: the error of
    [os.makedirs], raised before the [try], reaches the caller. *)
Theorem create_all_variants_raises :
  create_all_variants_for_product Scenario.product_dir_blocked Scenario.store
    "cavallo-spettrale" Scenario.artwork_path Scenario.assets "artifacts"
  = (Raise OSError, Scenario.store).
Proof. reflexivity. Qed.

(** The worked product composed twice. *)
Lemma rerun_is_idempotent_witness :
  create_all_variants_for_product Scenario.permissive
    (snd (create_all_variants_for_product Scenario.permissive Scenario.store
            "cavallo-spettrale" Scenario.artwork_path Scenario.assets "artifacts"))
    "cavallo-spettrale" Scenario.artwork_path Scenario.assets "artifacts"
  = create_all_variants_for_product Scenario.permissive Scenario.store
      "cavallo-spettrale" Scenario.artwork_path Scenario.assets "artifacts".
Proof.
  apply rerun_is_idempotent.
  apply inputs_apart_unchanged.
  apply Forall_forall.
  apply (bool_decide_unpack _). vm_compute. exact I.
Defined.

(** C10.  Once the product directory exists, the [front_light] entry is
    the path of the front-light canvas when [title_dark] and
    [wordmark_dark] are both non-empty in the asset map and [compose_front]
    succeeds, and [None] otherwise; when either is absent or falsy the step
    composes nothing and leaves results and store alone, whatever the
    artwork path holds.  The same goes for [front_dark] with [title_light]
    and [wordmark_light].  The [back] entry is decided by [compose_back]
    alone, which runs whatever the asset map holds. *)
Theorem front_gated_back_unconditional (env : Env) (fs : Store) (slug main : string)
    (asset_urls : gmap string (option string)) (output_dir : string) :
  let product_dir := os_path_join output_dir slug in
  let front_light_path := os_path_join product_dir (slug +:+ "_front_light.png") in
  let front_dark_path := os_path_join product_dir (slug +:+ "_front_dark.png") in
  let back_path := os_path_join product_dir (slug +:+ "_back.png") in
  let st0 := (results_init, fs) in
  let st1 := step_front_light env slug main asset_urls product_dir st0 in
  let st2 := step_front_dark env slug main asset_urls product_dir st1 in
  os_makedirs env product_dir = Ok tt ->
  exists results fs',
    create_all_variants_for_product env fs slug main asset_urls output_dir
      = (Ok results, fs')
    /\ results !! "front_light" =
        Some (match get_truthy asset_urls "title_dark",
                    get_truthy asset_urls "wordmark_dark" with
              | Some title, Some wordmark =>
                  if fst (compose_front env fs main title wordmark front_light_path)
                  then Some front_light_path else None
              | _, _ => None
              end)
    /\ (get_truthy asset_urls "title_dark" = None
          \/ get_truthy asset_urls "wordmark_dark" = None -> st1 = st0)
    /\ results !! "front_dark" =
        Some (match get_truthy asset_urls "title_light",
                    get_truthy asset_urls "wordmark_light" with
              | Some title, Some wordmark =>
                  if fst (compose_front env (snd st1) main title wordmark front_dark_path)
                  then Some front_dark_path else None
              | _, _ => None
              end)
    /\ (get_truthy asset_urls "title_light" = None
          \/ get_truthy asset_urls "wordmark_light" = None -> st2 = st1)
    /\ results !! "back" =
        Some (if fst (compose_back env (snd st2) main back_path)
              then Some back_path else None).
Proof.
  cbv zeta. intros Hdir.
  unfold create_all_variants_for_product. rewrite Hdir.
  unfold create_all_variants_try.
  set (pd := os_path_join output_dir slug).
  set (st1 := step_front_light env slug main asset_urls pd (results_init, fs)).
  set (st2 := step_front_dark env slug main asset_urls pd st1).
  set (st3 := step_back env slug main pd st2).
  set (st4 := step_sleeve_dark env slug asset_urls pd st3).
  destruct (step_sleeve_light env slug asset_urls pd st4) as [results fs'] eqn:H5.
  exists results, fs'. split; [reflexivity |].
  change results with (fst (results, fs')). rewrite <- H5.
  assert (Hinit : forall k, k ∈ five_keys -> results_init !! k = Some None).
  { intros k Hk. unfold five_keys in Hk.
    repeat (apply elem_of_cons in Hk as [-> | Hk]; [reflexivity |]).
    apply elem_of_nil in Hk. contradiction. }
  split; [| split; [| split; [| split]]].
  - rewrite step_sleeve_light_attempt, run_attempt_key_ne by (cbn; discriminate).
    subst st4. rewrite step_sleeve_dark_attempt, run_attempt_key_ne by (cbn; discriminate).
    subst st3. rewrite step_back_attempt, run_attempt_key_ne by (cbn; discriminate).
    subst st2. rewrite step_front_dark_attempt, run_attempt_key_ne by (cbn; discriminate).
    subst st1. rewrite step_front_light_attempt.
    rewrite (run_attempt_key (attempt_front env slug main asset_urls pd
               "front_light" "title_dark" "wordmark_dark" "_front_light.png")).
    cbn [at_outcome at_key at_path attempt_front snd fst]. unfold output_path.
    rewrite Hinit by (unfold five_keys; in_list).
    destruct (get_truthy asset_urls "title_dark") as [t|]; [| reflexivity].
    destruct (get_truthy asset_urls "wordmark_dark") as [w|]; [| reflexivity].
    rewrite compose_front_outcome.
    destruct (front_outcome env fs main t w _); reflexivity.
  - intros Hgate. subst st1. unfold step_front_light.
    destruct (get_truthy asset_urls "title_dark") as [t|]; [| reflexivity].
    destruct (get_truthy asset_urls "wordmark_dark") as [w|]; [| reflexivity].
    destruct Hgate; discriminate.
  - rewrite step_sleeve_light_attempt, run_attempt_key_ne by (cbn; discriminate).
    subst st4. rewrite step_sleeve_dark_attempt, run_attempt_key_ne by (cbn; discriminate).
    subst st3. rewrite step_back_attempt, run_attempt_key_ne by (cbn; discriminate).
    subst st2. rewrite step_front_dark_attempt.
    rewrite (run_attempt_key (attempt_front env slug main asset_urls pd
               "front_dark" "title_light" "wordmark_light" "_front_dark.png")).
    cbn [at_outcome at_key at_path attempt_front]. unfold output_path.
    assert (Hprev : fst st1 !! "front_dark" = Some None).
    { subst st1. rewrite step_front_light_attempt, run_attempt_key_ne by (cbn; discriminate).
      apply Hinit. unfold five_keys. in_list. }
    rewrite Hprev.
    destruct (get_truthy asset_urls "title_light") as [t|]; [| reflexivity].
    destruct (get_truthy asset_urls "wordmark_light") as [w|]; [| reflexivity].
    rewrite compose_front_outcome.
    destruct (front_outcome env (snd st1) main t w _); reflexivity.
  - intros Hgate. subst st2. unfold step_front_dark. destruct st1 as [r1 fs1].
    destruct (get_truthy asset_urls "title_light") as [t|]; [| reflexivity].
    destruct (get_truthy asset_urls "wordmark_light") as [w|]; [| reflexivity].
    destruct Hgate; discriminate.
  - rewrite step_sleeve_light_attempt, run_attempt_key_ne by (cbn; discriminate).
    subst st4. rewrite step_sleeve_dark_attempt, run_attempt_key_ne by (cbn; discriminate).
    subst st3. rewrite step_back_attempt.
    rewrite (run_attempt_key (attempt_back env slug main pd)).
    cbn [at_outcome at_key at_path attempt_back]. unfold output_path, compose_back.
    assert (Hprev : fst st2 !! "back" = Some None).
    { subst st2 st1.
      rewrite step_front_dark_attempt, run_attempt_key_ne by (cbn; discriminate).
      rewrite step_front_light_attempt, run_attempt_key_ne by (cbn; discriminate).
      apply Hinit. unfold five_keys. in_list. }
    rewrite Hprev, compose_single_outcome.
    destruct (single_outcome env (snd st2) _ _ _ main _); reflexivity.
Qed.

(** The worked product without its dark wordmark: no front-light canvas,
    and a back canvas all the same. *)
Lemma front_gated_back_unconditional_witness :
  exists results fs',
    create_all_variants_for_product Scenario.permissive Scenario.store
      "cavallo-spettrale" Scenario.artwork_path Scenario.assets_no_wordmark_dark
      "artifacts" = (Ok results, fs')
    /\ results !! "front_light" = Some None
    /\ results !! "back"
        = Some (Some "artifacts/cavallo-spettrale/cavallo-spettrale_back.png").
Proof.
  destruct (front_gated_back_unconditional Scenario.permissive Scenario.store
              "cavallo-spettrale" Scenario.artwork_path
              Scenario.assets_no_wordmark_dark "artifacts")
    as (results & fs' & Hrun & Hlight & _ & _ & _ & Hback); [reflexivity |].
  exists results, fs'. split; [exact Hrun |]. split.
  - rewrite Hlight. vm_compute. reflexivity.
  - rewrite Hback. vm_compute. reflexivity.
Defined.

End ComposerVariants.

(** ** Curved text *)

Module CurvedText.
Import FontRenderer.

Local Open Scope R_scope.

Lemma py_div_Ok (a b : R) : b <> 0 -> py_div a b = Ok (a / b).
Proof. intros Hb. unfold py_div. destruct (Req_dec_T b 0); [contradiction | reflexivity]. Qed.

Lemma py_div_by_zero (a b : R) : b = 0 -> py_div a b = Raise ZeroDivisionError.
Proof. intros Hb. unfold py_div. destruct (Req_dec_T b 0); [reflexivity | contradiction]. Qed.

(** The guard of line 42: whatever the curvature, the divisor of the
    radius is not zero. *)
Lemma radius_divisor_nonzero (curve_strength : R) : radius_divisor curve_strength <> 0.
Proof.
  unfold radius_divisor. destruct (Rgt_dec (Rabs curve_strength) 0) as [Hpos|_].
  - pose proof PI_RGT_0. nra.
  - lra.
Qed.



Lemma radius_nonzero (tw : Z) (curve_strength : R) :
  tw <> 0%Z -> IZR tw / radius_divisor curve_strength <> 0.
Proof.
  intros Htw Hz. pose proof (radius_divisor_nonzero curve_strength) as Hd.
  apply (Rmult_eq_compat_r (radius_divisor curve_strength)) in Hz.
  unfold Rdiv in Hz. rewrite Rmult_assoc, Rinv_l, Rmult_1_r, Rmult_0_l in Hz by exact Hd.
  apply eq_IZR_R0 in Hz. contradiction.
Qed.

Lemma radius_of_no_width (curve_strength : R) :
  IZR 0 / radius_divisor curve_strength = 0.
Proof. unfold Rdiv. apply Rmult_0_l. Qed.

Lemma text_width_cons (font : Font) (char : N) (text : list N) :
  text_width font (char :: text) = (getbbox_right font char + text_width font text)%Z.
Proof. reflexivity. Qed.

Lemma pil_new_Ok (mode : Mode) (w h : Z) (fill : Color) :
  (0 <= w)%Z -> (0 <= h)%Z ->
  pil_new mode (w, h) fill =
  Ok {| im_mode := mode; im_width := w; im_height := h; im_data := Blank fill |}.
Proof.
  intros Hw Hh. unfold pil_new.
  destruct (Z.ltb_spec w 0); [lia |]. destruct (Z.ltb_spec h 0); [lia |]. reflexivity.
Qed.

Section Loop.

Variable font : Font.
Variable font_size : Z.
Variable color : Color.
Variables center_x center_y : Z.
Variables radius curve_strength : R.

(** The glyphs of the loop at these parameters. *)
Local Abbreviation glyph_here :=
  (glyph_at font font_size center_x center_y radius curve_strength).
Local Abbreviation glyphs_from :=
  (run_glyphs font font_size center_x center_y radius curve_strength).

Lemma draw_char_Ok (current_x : R) (img : Image) (char : N) :
  radius <> 0 -> (0 <= font_size)%Z ->
  exists img',
    draw_char font font_size color center_x center_y radius curve_strength
      (current_x, img) char
    = Ok (current_x + IZR (getbbox_right font char), img')
    /\ im_mode img' = im_mode img
    /\ im_size img' = im_size img
    /\ glyphs (im_data img') = (glyphs (im_data img) ++ [glyph_here current_x char])%list.
Proof.
  intros Hr Hfs. unfold draw_char.
  rewrite py_div_Ok by exact Hr. rewrite bind_Ok.
  rewrite pil_new_Ok by lia. rewrite bind_Ok.
  eexists. split; [reflexivity |]. repeat split.
Qed.

Lemma draw_chars_Ok (text : list N) : forall (current_x : R) (img : Image),
  radius <> 0 -> (0 <= font_size)%Z ->
  exists img',
    draw_chars font font_size color center_x center_y radius curve_strength
      (current_x, img) text
    = Ok (current_x + IZR (text_width font text), img')
    /\ im_mode img' = im_mode img
    /\ im_size img' = im_size img
    /\ glyphs (im_data img') = (glyphs (im_data img) ++ glyphs_from current_x text)%list.
Proof.
  induction text as [|char rest IH]; intros current_x img Hr Hfs.
  - exists img. cbn [draw_chars run_glyphs]. rewrite app_nil_r.
    replace (current_x + IZR (text_width font [])) with current_x
      by (cbn; lra).
    auto.
  - destruct (draw_char_Ok current_x img char Hr Hfs) as (img1 & H1 & Hm1 & Hs1 & Hg1).
    destruct (IH (current_x + IZR (getbbox_right font char)) img1 Hr Hfs)
      as (img2 & H2 & Hm2 & Hs2 & Hg2).
    exists img2. cbn [draw_chars]. rewrite H1, bind_Ok, H2.
    split; [| split; [congruence | split; [congruence |]]].
    + rewrite text_width_cons, plus_IZR. do 2 f_equal. lra.
    + rewrite Hg2, Hg1. cbn [run_glyphs]. rewrite <- app_assoc. reflexivity.
Qed.

(** With a zero radius the first character already divides by zero. *)
Lemma draw_chars_zero_radius (st : R * Image) (char : N) (rest : list N) :
  radius = 0 ->
  draw_chars font font_size color center_x center_y radius curve_strength
    st (char :: rest)
  = Raise ZeroDivisionError.
Proof.
  intros Hr. destruct st as [current_x img]. cbn [draw_chars]. unfold draw_char.
  rewrite py_div_by_zero by exact Hr. reflexivity.
Qed.

Lemma run_glyphs_length (text : list N) : forall current_x,
  length (glyphs_from current_x text) = length text.
Proof.
  induction text as [|char rest IH]; intros current_x; [reflexivity |].
  cbn [run_glyphs length]. rewrite IH. reflexivity.
Qed.


End Loop.

Section Draw.

Variable load_default : Font.
Variable fs : Store.
Variable text : list N.
Variable font_path : string.
Variable font_size : Z.
Variables w h : Z.
Variable curve_strength : R.
Variable color : Color.

Let font := load_font load_default fs font_path font_size.
Let tw := text_width font text.

(** Away from the degenerate widths the renderer returns its raster:
    whatever the curvature, zero included. *)
Lemma draw_curved_text_runs :
  text = [] \/ tw <> 0%Z ->
  (0 <= w)%Z -> (0 <= h)%Z -> (0 <= font_size)%Z ->
  exists img,
    draw_curved_text load_default fs text font_path font_size (w, h)
      curve_strength color = Ok img
    /\ im_mode img = RGBA
    /\ im_size img = (w, h)
    /\ glyphs (im_data img) =
        run_glyphs font font_size (w / 2) (h / 2 + 50)
          (IZR tw / radius_divisor curve_strength) curve_strength
          (- IZR tw / 2) text.
Proof.
  intros Hdeg Hw Hh Hfs. unfold draw_curved_text. fold font. fold tw.
  rewrite py_div_Ok by apply radius_divisor_nonzero. rewrite bind_Ok.
  rewrite pil_new_Ok by assumption. rewrite bind_Ok.
  destruct Hdeg as [-> | Htw].
  - eexists. cbn [draw_chars]. rewrite bind_Ok. cbn [snd]. repeat split.
  - destruct (draw_chars_Ok font font_size color (w / 2) (h / 2 + 50)
                (IZR tw / radius_divisor curve_strength) curve_strength text
                (- IZR tw / 2)
                {| im_mode := RGBA; im_width := w; im_height := h;
                   im_data := Blank transparent |}
                (radius_nonzero tw curve_strength Htw) Hfs)
      as (img & Hrun & Hm & Hs & Hg).
    exists img. rewrite Hrun, bind_Ok. cbn [snd].
    split; [reflexivity |]. split; [exact Hm |]. split; [exact Hs |].
    rewrite Hg. reflexivity.
Qed.

(** A text that is not empty and has no advance width makes the radius
    zero, and the first angle divides by it. *)
Lemma draw_curved_text_no_width (char : N) (rest : list N) :
  text = char :: rest -> tw = 0%Z ->
  (0 <= w)%Z -> (0 <= h)%Z ->
  draw_curved_text load_default fs text font_path font_size (w, h)
    curve_strength color = Raise ZeroDivisionError.
Proof.
  intros Htext Htw Hw Hh. unfold draw_curved_text. fold font. fold tw.
  rewrite py_div_Ok by apply radius_divisor_nonzero. rewrite bind_Ok.
  rewrite pil_new_Ok by assumption. rewrite bind_Ok.
  rewrite Htext, draw_chars_zero_radius; [reflexivity |].
  rewrite Htw. apply radius_of_no_width.
Qed.


End Draw.

(** C4, at the failing input.  A title made of one zero-width space has
    no advance width: the radius is zero and the first angle raises
    [ZeroDivisionError], here with the curvature exactly 0. *)
Theorem zero_width_text_divides_by_zero :
  draw_curved_text Scenario.builtin_font Scenario.font_store [8203%N]
    LIBRE_BODONI_FONT_regular 180 (2400, 800)%Z 0 dark_text
  = Raise ZeroDivisionError.
Proof.
  apply (draw_curved_text_no_width _ _ _ _ _ _ _ _ _ 8203%N []);
    [reflexivity | vm_compute; reflexivity | lia | lia].
Qed.


Lemma run_glyphs_font font font_size center_x center_y radius curve_strength text :
  forall current_x,
  Forall (fun g => g_font g = font_name font)
    (run_glyphs font font_size center_x center_y radius curve_strength current_x text).
Proof.
  induction text as [|char rest IH]; intros current_x; cbn [run_glyphs].
  - apply Forall_nil_2.
  - apply Forall_cons. split; [reflexivity | apply IH].
Qed.

(** C9, as stated, fails: with no file at the font path the font cannot be
    loaded, and title rendering returns [dark = None], [light = None] and
    writes nothing. *)
Lemma missing_font_renders_nothing :
  truetype Scenario.store LIBRE_BODONI_FONT_regular 180 = Raise OSError
  /\ render_title_with_libre_bodoni Scenario.builtin_font Scenario.slug_of
       Scenario.permissive Scenario.store Scenario.hi "artifacts"
     = (Ok no_title, Scenario.store).
Proof. split; reflexivity. Qed.

(** C9, amended.  The output directory being there: with no file at the
    font path, title rendering returns [dark = None], [light = None] and
    leaves the store alone; with a file there that cannot be loaded as a
    font, the renderer draws with the built-in face, and, the title being
    empty or of non-zero width in that face and both saves succeeding,
    title rendering returns the two paths and leaves the two rasters in the
    store. *)
Theorem unloadable_font_falls_back (load_default : Font)
    (generate_kebab_slug : list N -> string) (env : Env) (fs : Store)
    (title_text : list N) (output_dir : string) :
  let dark_path :=
    os_path_join output_dir (generate_kebab_slug title_text +:+ "_title_dark.png") in
  let light_path :=
    os_path_join output_dir (generate_kebab_slug title_text +:+ "_title_light.png") in
  os_makedirs env output_dir = Ok tt ->
  (fs !! LIBRE_BODONI_FONT_regular = None ->
   render_title_with_libre_bodoni load_default generate_kebab_slug env fs
     title_text output_dir = (Ok no_title, fs))
  /\ (forall file,
      fs !! LIBRE_BODONI_FONT_regular = Some file ->
      is_ok (truetype fs LIBRE_BODONI_FONT_regular 180) = false ->
      title_text = [] \/ text_width load_default title_text <> 0%Z ->
      save_ok env dark_path = true ->
      save_ok env light_path = true ->
      load_font load_default fs LIBRE_BODONI_FONT_regular 180 = load_default
      /\ exists img_dark img_light,
          render_title_with_libre_bodoni load_default generate_kebab_slug env fs
            title_text output_dir
          = (Ok {| dark := Some dark_path; light := Some light_path;
                   title := Some title_text;
                   slug := Some (generate_kebab_slug title_text) |},
             <[light_path := ImageFile img_light]>
               (<[dark_path := ImageFile img_dark]> fs))
          /\ im_size img_dark = (2400, 800)%Z
          /\ im_size img_light = (2400, 800)%Z
          /\ length (glyphs (im_data img_dark)) = length title_text
          /\ length (glyphs (im_data img_light)) = length title_text
          /\ Forall (fun g => g_font g = font_name load_default)
               (glyphs (im_data img_dark))
          /\ Forall (fun g => g_font g = font_name load_default)
               (glyphs (im_data img_light))).
Proof.
  intros dark_path light_path Hdir. split.
  { intros Hnone. unfold render_title_with_libre_bodoni. rewrite Hdir.
    rewrite (ComposerOutputs.os_path_exists_false _ _ Hnone). reflexivity. }
  intros file Hfile Hload Hwidth Hdark Hlight.
  assert (Hfont : load_font load_default fs LIBRE_BODONI_FONT_regular 180 = load_default).
  { unfold load_font. destruct (truetype fs LIBRE_BODONI_FONT_regular 180);
      [discriminate | reflexivity]. }
  split; [exact Hfont |].
  pose proof (draw_curved_text_runs load_default fs title_text LIBRE_BODONI_FONT_regular
                180 2400 800 LIBRE_BODONI_FONT_curve) as Hruns.
  rewrite Hfont in Hruns.
  destruct (Hruns dark_text Hwidth) as (img_dark & Hd & _ & Hsd & Hgd); [lia | lia | lia |].
  destruct (Hruns light_text Hwidth) as (img_light & Hl & _ & Hsl & Hgl); [lia | lia | lia |].
  exists img_dark, img_light.
  split; [| split; [exact Hsd | split; [exact Hsl |]]].
  - unfold render_title_with_libre_bodoni. rewrite Hdir.
    rewrite (ComposerOutputs.os_path_exists_true _ _ _ Hfile). cbn [negb].
    rewrite Hd, Hl. unfold pil_save. fold dark_path. fold light_path.
    rewrite Hdark, Hlight. reflexivity.
  - rewrite Hgd, Hgl, !run_glyphs_length.
    split; [reflexivity |]. split; [reflexivity |].
    split; apply run_glyphs_font.
Qed.

(** "Hi" with something that is not a font at the font path. *)
Lemma unloadable_font_falls_back_witness :
  exists img_dark img_light,
    render_title_with_libre_bodoni Scenario.builtin_font Scenario.slug_of
      Scenario.permissive Scenario.broken_font_store Scenario.hi "artifacts"
    = (Ok {| dark := Some "artifacts/cavallo-spettrale_title_dark.png";
             light := Some "artifacts/cavallo-spettrale_title_light.png";
             title := Some Scenario.hi;
             slug := Some "cavallo-spettrale" |},
       <["artifacts/cavallo-spettrale_title_light.png" := ImageFile img_light]>
         (<["artifacts/cavallo-spettrale_title_dark.png" := ImageFile img_dark]>
            Scenario.broken_font_store))
    /\ length (glyphs (im_data img_dark)) = 2%nat.
Proof.
  destruct (unloadable_font_falls_back Scenario.builtin_font Scenario.slug_of
              Scenario.permissive Scenario.broken_font_store Scenario.hi "artifacts")
    as [_ H]; [reflexivity |].
  destruct (H Unreadable)
    as (_ & img_dark & img_light & Hrun & _ & _ & Hlen & _);
    [reflexivity | reflexivity | right; vm_compute; discriminate
    | reflexivity | reflexivity |].
  exists img_dark, img_light. split; [exact Hrun | exact Hlen].
Defined.

End CurvedText.

(** ** Placement: more on positions, clamping and resizing *)

Module Placement.
Import CanvasComposer ComposerOutputs.

(** X1.  Clamping a clamped position changes nothing. *)
Theorem apply_safe_margins_idempotent (position element_size canvas_size : Z * Z)
    (margin : Z) :
  apply_safe_margins (apply_safe_margins position element_size canvas_size margin)
    element_size canvas_size margin
  = apply_safe_margins position element_size canvas_size margin.
Proof.
  destruct position as [x y], element_size as [ew eh], canvas_size as [cw ch].
  unfold apply_safe_margins. f_equal; lia.
Qed.

(** X2.  A position whose element already lies in the safe area is not moved. *)
Theorem apply_safe_margins_fixes_safe_positions (x y elem_w elem_h canvas_w canvas_h margin : Z) :
  margin <= x -> x + elem_w <= canvas_w - margin ->
  margin <= y -> y + elem_h <= canvas_h - margin ->
  apply_safe_margins (x, y) (elem_w, elem_h) (canvas_w, canvas_h) margin = (x, y).
Proof. intros Hx1 Hx2 Hy1 Hy2. unfold apply_safe_margins. f_equal; lia. Qed.

Lemma apply_safe_margins_fixes_safe_positions_witness :
  apply_safe_margins (990, 960) (1620, 1620) (3600, 4800) 75 = (990, 960).
Proof. apply apply_safe_margins_fixes_safe_positions; lia. Defined.

(** X3.  Without [top_percent] and with any alignment but left and right
    (unknown alignments included) the element is centred: on each axis the
    gap after it is the gap before it, or one pixel more. *)
Theorem calculate_position_centres (canvas_w canvas_h elem_w elem_h : Z)
    (position_config : Rule) (alignment : string) :
  alignment <> "left" -> alignment <> "right" ->
  position_config !! "top_percent" = None ->
  let p := calculate_position (canvas_w, canvas_h) (elem_w, elem_h)
             position_config alignment in
  0 <= (canvas_w - elem_w - fst p) - fst p <= 1
  /\ 0 <= (canvas_h - elem_h - snd p) - snd p <= 1.
Proof.
  intros Hl Hr Htop. unfold calculate_position. rewrite Htop.
  destruct (String.eqb_spec alignment "left"); [contradiction |].
  destruct (String.eqb_spec alignment "right"); [contradiction |].
  assert (Hx : forall b : bool,
            (if b then (canvas_w - elem_w) / 2 else (canvas_w - elem_w) / 2)
            = (canvas_w - elem_w) / 2) by (intros []; reflexivity).
  rewrite Hx. cbn [fst snd].
  pose proof (Z.div_mod (canvas_w - elem_w) 2 ltac:(lia)).
  pose proof (Z.mod_pos_bound (canvas_w - elem_w) 2 ltac:(lia)).
  pose proof (Z.div_mod (canvas_h - elem_h) 2 ltac:(lia)).
  pose proof (Z.mod_pos_bound (canvas_h - elem_h) 2 ltac:(lia)).
  lia.
Qed.

Lemma calculate_position_centres_witness :
  calculate_position (3600, 4800) (901, 337) ∅ "middle" = (1349, 2231).
Proof.
  pose proof (calculate_position_centres 3600 4800 901 337 ∅ "middle") as H.
  cbv zeta in H.
  destruct H as [_ _]; [discriminate | discriminate | reflexivity |].
  reflexivity.
Defined.

(** X4.  Position then clamp, as every composition does: a centred element no
    wider than the safe area stays centred. *)
Theorem centred_element_is_not_moved_sideways (canvas_w canvas_h elem_w elem_h margin : Z)
    (position_config : Rule) :
  elem_w <= canvas_w - 2 * margin ->
  fst (apply_safe_margins
         (calculate_position (canvas_w, canvas_h) (elem_w, elem_h)
            position_config "center")
         (elem_w, elem_h) (canvas_w, canvas_h) margin)
  = (canvas_w - elem_w) / 2.
Proof.
  intros Hfit. unfold calculate_position, apply_safe_margins.
  change (String.eqb "center" "center") with true. cbn [fst].
  pose proof (Z.div_mod (canvas_w - elem_w) 2 ltac:(lia)).
  pose proof (Z.mod_pos_bound (canvas_w - elem_w) 2 ltac:(lia)).
  lia.
Qed.

Lemma centred_element_is_not_moved_sideways_witness :
  fst (apply_safe_margins
         (calculate_position (3600, 4800) (2160, 720) rule_front_title "center")
         (2160, 720) (3600, 4800) 75)
  = 720.
Proof. apply (centred_element_is_not_moved_sideways 3600 4800 2160 720 75); lia. Defined.

(** What a successful resize returns, by the key of the rule. *)
Lemma resize_maintaining_aspect_inv image rule canvas_w canvas_h out :
  resize_maintaining_aspect image rule (canvas_w, canvas_h) = Ok out ->
  match rule !! "width_percent" with
  | Some pct =>
      im_width image <> 0
      /\ im_width out = Z.quot (canvas_w * pct) 100
      /\ im_height out = Z.quot (im_width out * im_height image) (im_width image)
      /\ 1 <= im_width out /\ 1 <= im_height out
  | None =>
      match rule !! "height_percent" with
      | Some pct =>
          im_height image <> 0
          /\ im_height out = Z.quot (canvas_h * pct) 100
          /\ im_width out = Z.quot (im_height out * im_width image) (im_height image)
          /\ 1 <= im_width out /\ 1 <= im_height out
      | None => out = image
      end
  end.
Proof.
  unfold resize_maintaining_aspect.
  destruct (rule !! "width_percent") as [pct|].
  - intros H. apply bind_Ok_inv in H as (th & Hth & H).
    unfold int_truediv in Hth. destruct (Z.eqb_spec (im_width image) 0); [discriminate |].
    injection Hth as <-.
    apply pil_resize_inv in H as (_ & Hs & Hw & Hh). cbn [fst snd] in *.
    injection Hs as Hsw Hsh. rewrite Hsw, Hsh. auto.
  - destruct (rule !! "height_percent") as [pct|]; [| intros [= <-]; reflexivity].
    intros H. apply bind_Ok_inv in H as (tw & Htw & H).
    unfold int_truediv in Htw. destruct (Z.eqb_spec (im_height image) 0); [discriminate |].
    injection Htw as <-.
    apply pil_resize_inv in H as (_ & Hs & Hw & Hh). cbn [fst snd] in *.
    injection Hs as Hsw Hsh. rewrite Hsw, Hsh. auto.
Qed.



(** X6.  With a percentage between 0 and 100 the governed dimension of the
    result never exceeds the canvas. *)
Theorem resize_maintaining_aspect_within_canvas (image out : Image) (rule : Rule)
    (canvas_w canvas_h pct : Z) :
  0 <= pct <= 100 -> 0 <= canvas_w -> 0 <= canvas_h ->
  resize_maintaining_aspect image rule (canvas_w, canvas_h) = Ok out ->
  (rule !! "width_percent" = Some pct -> im_width out <= canvas_w)
  /\ (rule !! "width_percent" = None -> rule !! "height_percent" = Some pct ->
      im_height out <= canvas_h).
Proof.
  intros Hpct Hcw Hch H.
  pose proof (resize_maintaining_aspect_inv _ _ _ _ _ H) as Hinv.
  split.
  - intros Hrule. rewrite Hrule in Hinv. destruct Hinv as (_ & -> & _).
    rewrite Z.quot_div_nonneg by lia. apply Z.div_le_upper_bound; nia.
  - intros Hnone Hrule. rewrite Hnone, Hrule in Hinv. destruct Hinv as (_ & -> & _).
    rewrite Z.quot_div_nonneg by lia. apply Z.div_le_upper_bound; nia.
Qed.

Lemma resize_maintaining_aspect_within_canvas_witness :
  im_width {| im_mode := RGBA; im_width := 2880; im_height := 2880;
              im_data := Lanczos (Raw 1) 2000 2000 2880 2880 |} <= 3600.
Proof.
  apply (resize_maintaining_aspect_within_canvas Scenario.artwork _
           rule_back_main_image 3600 4800 80);
    [lia | lia | lia | vm_compute; reflexivity | reflexivity].
Defined.

(** *** Layers of a composition *)

(** What an element step of a composition does to the layers. *)
Lemma place_if_exists_layers fs path placement element canvas canvas_size margin canvas' :
  (if os_path_exists fs path
   then place fs path placement element canvas canvas_size margin
   else Ok canvas) = Ok canvas' ->
  layers (im_data canvas') = layers (im_data canvas)
  \/ exists sec config img resized,
       LAYOUT_CONFIG !! placement = Some sec
       /\ sec !! element = Some config
       /\ resize_maintaining_aspect img config canvas_size = Ok resized
       /\ layers (im_data canvas') =
           (layers (im_data canvas)
            ++ [(im_data resized, im_size resized,
                 apply_safe_margins
                   (calculate_position canvas_size (im_size resized) config "center")
                   (im_size resized) canvas_size margin)])%list.
Proof.
  destruct (os_path_exists fs path); [| intros [= <-]; left; reflexivity].
  unfold place. intros H.
  inv_bind H as img Himg. inv_bind H as sec Hsec. inv_bind H as config Hconfig.
  inv_bind H as resized Hresized. injection H as <-.
  right. exists sec, config, (pil_convert_rgba img), resized.
  split; [apply getitem_inv, Hsec |]. split; [apply getitem_inv, Hconfig |].
  split; [exact Hresized |]. apply pil_paste_layers.
Qed.

(** A layer resized by a width rule that fits the safe width. *)
Lemma width_rule_layer_safe img config resized canvas_w canvas_h margin pct :
  config !! "width_percent" = Some pct ->
  Z.quot (canvas_w * pct) 100 <= canvas_w - 2 * margin ->
  resize_maintaining_aspect img config (canvas_w, canvas_h) = Ok resized ->
  safe_across canvas_w canvas_h margin
    (im_data resized, im_size resized,
     apply_safe_margins
       (calculate_position (canvas_w, canvas_h) (im_size resized) config "center")
       (im_size resized) (canvas_w, canvas_h) margin).
Proof.
  intros Hrule Hfit H.
  pose proof (resize_maintaining_aspect_inv _ _ _ _ _ H) as Hinv.
  rewrite Hrule in Hinv. destruct Hinv as (_ & Hw & _).
  unfold safe_across, layer_x, layer_y, layer_w, layer_h, im_size.
  destruct (calculate_position _ _ _ _) as [x y]. unfold apply_safe_margins.
  cbn [fst snd]. lia.
Qed.

(** A layer resized by a height rule that fits the safe height. *)
Lemma height_rule_layer_safe img config resized canvas_w canvas_h margin pct :
  config !! "width_percent" = None ->
  config !! "height_percent" = Some pct ->
  Z.quot (canvas_h * pct) 100 <= canvas_h - 2 * margin ->
  resize_maintaining_aspect img config (canvas_w, canvas_h) = Ok resized ->
  safe_down canvas_w canvas_h margin
    (im_data resized, im_size resized,
     apply_safe_margins
       (calculate_position (canvas_w, canvas_h) (im_size resized) config "center")
       (im_size resized) (canvas_w, canvas_h) margin).
Proof.
  intros Hnone Hrule Hfit H.
  pose proof (resize_maintaining_aspect_inv _ _ _ _ _ H) as Hinv.
  rewrite Hnone, Hrule in Hinv. destruct Hinv as (_ & Hh & _).
  unfold safe_down, layer_x, layer_y, layer_w, layer_h, im_size.
  destruct (calculate_position _ _ _ _) as [x y]. unfold apply_safe_margins.
  cbn [fst snd]. lia.
Qed.

(** The rules of the configured table. *)
Lemma front_rules sec :
  LAYOUT_CONFIG !! "front" = Some sec ->
  sec !! "main_image" = Some rule_front_main_image
  /\ sec !! "title" = Some rule_front_title
  /\ sec !! "wordmark" = Some rule_front_wordmark.
Proof.
  intros H.
  assert (exists s0, LAYOUT_CONFIG !! "front" = Some s0
            /\ s0 !! "main_image" = Some rule_front_main_image
            /\ s0 !! "title" = Some rule_front_title
            /\ s0 !! "wordmark" = Some rule_front_wordmark) as (s0 & H0 & Hrules).
  { eexists. split; [reflexivity |]. repeat split; reflexivity. }
  rewrite H0 in H. injection H as <-. exact Hrules.
Qed.

Lemma back_rules sec :
  LAYOUT_CONFIG !! "back" = Some sec ->
  sec !! "main_image" = Some rule_back_main_image.
Proof.
  intros H.
  assert (exists s0, LAYOUT_CONFIG !! "back" = Some s0
            /\ s0 !! "main_image" = Some rule_back_main_image) as (s0 & H0 & Hrule).
  { eexists. split; reflexivity. }
  rewrite H0 in H. injection H as <-. exact Hrule.
Qed.

Lemma sleeve_rules sec :
  LAYOUT_CONFIG !! "sleeve" = Some sec ->
  sec !! "logo" = Some rule_sleeve_logo.
Proof.
  intros H.
  assert (exists s0, LAYOUT_CONFIG !! "sleeve" = Some s0
            /\ s0 !! "logo" = Some rule_sleeve_logo) as (s0 & H0 & Hrule).
  { eexists. split; reflexivity. }
  rewrite H0 in H. injection H as <-. exact Hrule.
Qed.

Lemma front_step_safe fs path element canvas canvas' :
  element = "main_image" \/ element = "title" \/ element = "wordmark" ->
  (if os_path_exists fs path
   then place fs path "front" element canvas (3600, 4800) 75
   else Ok canvas) = Ok canvas' ->
  Forall (safe_across 3600 4800 75) (layers (im_data canvas)) ->
  Forall (safe_across 3600 4800 75) (layers (im_data canvas')).
Proof.
  intros Hel H Hall.
  apply place_if_exists_layers in H
    as [-> | (sec & config & img & resized & Hsec & Hconfig & Hres & ->)];
    [exact Hall |].
  apply Forall_app. split; [exact Hall |]. apply Forall_singleton.
  destruct (front_rules sec Hsec) as (Hm & Ht & Hw).
  destruct Hel as [-> | [-> | ->]].
  - assert (config = rule_front_main_image) as -> by congruence.
    apply (width_rule_layer_safe img _ resized 3600 4800 75 45);
      [reflexivity | vm_compute; discriminate | exact Hres].
  - assert (config = rule_front_title) as -> by congruence.
    apply (width_rule_layer_safe img _ resized 3600 4800 75 60);
      [reflexivity | vm_compute; discriminate | exact Hres].
  - assert (config = rule_front_wordmark) as -> by congruence.
    apply (width_rule_layer_safe img _ resized 3600 4800 75 25);
      [reflexivity | vm_compute; discriminate | exact Hres].
Qed.

(** X7.  Every layer of a saved composition starts inside the margins.  On the
    main canvas (front and back) it also ends before the right margin, and
    before the bottom margin when it is at most 4650 pixels high; on the
    sleeve canvas it ends before the bottom margin, and before the right
    margin when it is at most 750 pixels wide. *)
Theorem saved_layers_are_in_the_safe_area (env : Env) (fs fs' : Store) (out : string) :
  (forall main title wordmark,
     compose_front env fs main title wordmark out = (true, fs') ->
     exists canvas, fs' !! out = Some (ImageFile canvas)
       /\ Forall (safe_across 3600 4800 75) (layers (im_data canvas)))
  /\ (forall main,
     compose_back env fs main out = (true, fs') ->
     exists canvas, fs' !! out = Some (ImageFile canvas)
       /\ Forall (safe_across 3600 4800 75) (layers (im_data canvas)))
  /\ (forall logo,
     compose_sleeve env fs logo out = (true, fs') ->
     exists canvas, fs' !! out = Some (ImageFile canvas)
       /\ Forall (safe_down 900 4200 75) (layers (im_data canvas))).
Proof.
  split; [| split].
  - intros main title wordmark H.
    apply compose_front_true in H as (canvas & Hc & ->).
    exists canvas. split; [apply lookup_insert_eq |].
    unfold front_canvas in Hc. rewrite getitem_main, bind_Ok in Hc.
    inv_bind Hc as c0 H0. inv_bind Hc as c1 H1. inv_bind Hc as c2 H2.
    inv_bind Hc as c3 H3. injection Hc as <-.
    apply pil_new_inv in H0 as (_ & _ & Hblank).
    change (width main_template, height main_template) with (3600, 4800) in *.
    change (safe_margin main_template) with 75 in *.
    eapply front_step_safe; [| exact H3 |]; [auto |].
    eapply front_step_safe; [| exact H2 |]; [auto |].
    eapply front_step_safe; [| exact H1 |]; [auto |].
    rewrite Hblank. apply Forall_nil_2.
  - intros main H. unfold compose_back in H.
    apply compose_single_true in H as (canvas & Hc & ->).
    exists canvas. split; [apply lookup_insert_eq |].
    unfold single_canvas in Hc. rewrite getitem_main, bind_Ok in Hc.
    inv_bind Hc as c0 H0. apply pil_new_inv in H0 as (_ & _ & Hblank).
    change (width main_template, height main_template) with (3600, 4800) in *.
    change (safe_margin main_template) with 75 in *.
    destruct (os_path_exists fs main) eqn:Hex; [| discriminate].
    inv_bind Hc as c1 H1. injection Hc as <-.
    pose proof (place_if_exists_layers fs main "back" "main_image" c0 (3600, 4800) 75 c1)
      as Hl.
    rewrite Hex in Hl.
    destruct (Hl H1) as [-> | (sec & config & img & resized & Hsec & Hconfig & Hres & ->)];
      rewrite Hblank; [apply Forall_nil_2 |].
    apply Forall_singleton.
    assert (config = rule_back_main_image) as ->
      by (pose proof (back_rules sec Hsec); congruence).
    apply (width_rule_layer_safe img _ resized 3600 4800 75 80);
      [reflexivity | vm_compute; discriminate | exact Hres].
  - intros logo H. unfold compose_sleeve in H.
    apply compose_single_true in H as (canvas & Hc & ->).
    exists canvas. split; [apply lookup_insert_eq |].
    unfold single_canvas in Hc. rewrite getitem_sleeve, bind_Ok in Hc.
    inv_bind Hc as c0 H0. apply pil_new_inv in H0 as (_ & _ & Hblank).
    change (width sleeve_template, height sleeve_template) with (900, 4200) in *.
    change (safe_margin sleeve_template) with 75 in *.
    destruct (os_path_exists fs logo) eqn:Hex; [| discriminate].
    inv_bind Hc as c1 H1. injection Hc as <-.
    pose proof (place_if_exists_layers fs logo "sleeve" "logo" c0 (900, 4200) 75 c1)
      as Hl.
    rewrite Hex in Hl.
    destruct (Hl H1) as [-> | (sec & config & img & resized & Hsec & Hconfig & Hres & ->)];
      rewrite Hblank; [apply Forall_nil_2 |].
    apply Forall_singleton.
    assert (config = rule_sleeve_logo) as ->
      by (pose proof (sleeve_rules sec Hsec); congruence).
    apply (height_rule_layer_safe img _ resized 900 4200 75 25);
      [reflexivity | reflexivity | vm_compute; discriminate | exact Hres].
Qed.

(** The front-light canvas of the worked product. *)
Lemma saved_layers_are_in_the_safe_area_witness :
  let out := "artifacts/cavallo-spettrale/cavallo-spettrale_front_light.png" in
  exists canvas,
    snd (compose_front Scenario.permissive Scenario.store Scenario.artwork_path
           "artifacts/cavallo-spettrale_title_dark.png"
           "assets/wordmarks/too_dark.png" out) !! out = Some (ImageFile canvas)
    /\ Forall (safe_across 3600 4800 75) (layers (im_data canvas)).
Proof.
  intros out.
  destruct (saved_layers_are_in_the_safe_area Scenario.permissive Scenario.store
              (snd (compose_front Scenario.permissive Scenario.store
                      Scenario.artwork_path
                      "artifacts/cavallo-spettrale_title_dark.png"
                      "assets/wordmarks/too_dark.png" out)) out) as [H _].
  apply (H Scenario.artwork_path "artifacts/cavallo-spettrale_title_dark.png"
           "assets/wordmarks/too_dark.png").
  vm_compute. reflexivity.
Defined.

End Placement.

(** ** Validating a composition *)

Module ValidationProps.
Import CanvasComposer ComposerOutputs Validation.

(** X8.  The report is valid exactly when it lists no issue: every path that
    clears the flag adds an issue, and none adds an issue without clearing
    it. *)
Theorem valid_iff_no_issues (getsize : string -> result Z) (fs : Store)
    (image_path canvas_type : string) :
  valid (validate_composition getsize fs image_path canvas_type) = true
  <-> issues (validate_composition getsize fs image_path canvas_type) = [].
Proof.
  assert (Hdone : forall r : Report,
            (valid r = true /\ issues r = []) \/
            (valid r = false /\ issues r <> []) ->
            valid r = true <-> issues r = []).
  { intros r [[-> ->] | [-> Hne]]; split; intros H;
      (reflexivity || discriminate H || contradiction). }
  apply Hdone.
  unfold validate_composition, os_path_exists, pil_open, failed.
  destruct (fs !! image_path) as [[img| |]|]; cbn [negb];
    try (right; split; [reflexivity | discriminate]).
  destruct (getitem CANVAS_TEMPLATES canvas_type) as [template|e];
    [| right; split; [reflexivity | discriminate]].
  destruct (size_eqb (im_size img) (width template, height template));
    destruct (mode_is_rgba (im_mode img));
    destruct (getsize image_path) as [n|e];
    try destruct (n >? 50 * 1024 * 1024);
    cbn; ((left; split; reflexivity) || (right; split; [reflexivity | discriminate])).
Qed.

(** The report for a readable RGBA image of a known canvas type whose
    size can be read. *)
Lemma validate_rgba_image getsize fs image_path canvas_type img template n :
  fs !! image_path = Some (ImageFile img) ->
  CANVAS_TEMPLATES !! canvas_type = Some template ->
  getsize image_path = Ok n ->
  im_mode img = RGBA ->
  let r := validate_composition getsize fs image_path canvas_type in
  valid r = size_eqb (im_size img) (width template, height template)
  /\ issues r =
     (if size_eqb (im_size img) (width template, height template) then []
      else [WrongDimensions (im_size img) (width template, height template)])
  /\ warnings r =
     (if n >? 50 * 1024 * 1024
      then [LargeFile (IZR n / (1024 * 1024))%R] else []).
Proof.
  intros Hfile Htemplate Hsize Hmode.
  unfold validate_composition, os_path_exists, pil_open.
  rewrite Hfile. cbn [negb].
  rewrite (getitem_Some _ _ _ Htemplate), Hsize, Hmode. cbn [mode_is_rgba].
  destruct (size_eqb (im_size img) (width template, height template));
    destruct (n >? 50 * 1024 * 1024); cbn; auto.
Qed.

(** X9.  Compose, then validate: a canvas that [compose_front], [compose_back]
    or [compose_sleeve] saved passes validation against its own canvas type
    with no issue and no mode warning; the only warning it can draw is the
    one for a file above 50 MB. *)
Theorem composed_canvas_validates (getsize : string -> result Z) (env : Env)
    (fs fs' : Store) (out : string) (n : Z) :
  getsize out = Ok n ->
  let large := if n >? 50 * 1024 * 1024
               then [LargeFile (IZR n / (1024 * 1024))%R] else [] in
  (forall main title wordmark,
     compose_front env fs main title wordmark out = (true, fs') ->
     let r := validate_composition getsize fs' out "main" in
     valid r = true /\ issues r = [] /\ warnings r = large)
  /\ (forall main,
     compose_back env fs main out = (true, fs') ->
     let r := validate_composition getsize fs' out "main" in
     valid r = true /\ issues r = [] /\ warnings r = large)
  /\ (forall logo,
     compose_sleeve env fs logo out = (true, fs') ->
     let r := validate_composition getsize fs' out "sleeve" in
     valid r = true /\ issues r = [] /\ warnings r = large).
Proof.
  intros Hsize large. split; [| split].
  - intros main title wordmark H.
    apply compose_front_true in H as (canvas & Hc & ->).
    apply front_canvas_frame in Hc as [Hm Hs].
    destruct (validate_rgba_image getsize (<[out := ImageFile canvas]> fs) out "main"
                canvas main_template n (lookup_insert_eq _ _ _) eq_refl Hsize Hm)
      as (Hv & Hi & Hw).
    rewrite Hs in Hv, Hi. auto.
  - intros main H. unfold compose_back in H.
    apply compose_single_true in H as (canvas & Hc & ->).
    apply single_canvas_frame in Hc as (template & Ht & Hm & Hs).
    replace (CANVAS_TEMPLATES !! "main") with (Some main_template) in Ht by reflexivity.
    injection Ht as <-.
    destruct (validate_rgba_image getsize (<[out := ImageFile canvas]> fs) out "main"
                canvas main_template n (lookup_insert_eq _ _ _) eq_refl Hsize Hm)
      as (Hv & Hi & Hw).
    rewrite Hs in Hv, Hi. auto.
  - intros logo H. unfold compose_sleeve in H.
    apply compose_single_true in H as (canvas & Hc & ->).
    apply single_canvas_frame in Hc as (template & Ht & Hm & Hs).
    replace (CANVAS_TEMPLATES !! "sleeve") with (Some sleeve_template) in Ht by reflexivity.
    injection Ht as <-.
    destruct (validate_rgba_image getsize (<[out := ImageFile canvas]> fs) out "sleeve"
                canvas sleeve_template n (lookup_insert_eq _ _ _) eq_refl Hsize Hm)
      as (Hv & Hi & Hw).
    rewrite Hs in Hv, Hi. auto.
Qed.

(** The front-light canvas of the worked product, two megabytes on disk. *)
Lemma composed_canvas_validates_witness :
  let out := "artifacts/cavallo-spettrale/cavallo-spettrale_front_light.png" in
  let fs' := snd (compose_front Scenario.permissive Scenario.store
                    Scenario.artwork_path "artifacts/cavallo-spettrale_title_dark.png"
                    "assets/wordmarks/too_dark.png" out) in
  let r := validate_composition (fun _ => Ok 2097152) fs' out "main" in
  valid r = true /\ issues r = [] /\ warnings r = [].
Proof.
  intros out fs'.
  destruct (composed_canvas_validates (fun _ => Ok 2097152) Scenario.permissive
              Scenario.store fs' out 2097152 eq_refl) as [H _].
  apply (H Scenario.artwork_path "artifacts/cavallo-spettrale_title_dark.png"
           "assets/wordmarks/too_dark.png").
  vm_compute. reflexivity.
Defined.

(** X10.  Validation tells the two canvases apart: a saved sleeve checked as
    [main], or a saved front or back checked as [sleeve], is invalid, with
    the one issue of its dimensions. *)
Theorem wrong_canvas_type_is_reported (getsize : string -> result Z) (env : Env)
    (fs fs' : Store) (out : string) (n : Z) :
  getsize out = Ok n ->
  (forall logo,
     compose_sleeve env fs logo out = (true, fs') ->
     let r := validate_composition getsize fs' out "main" in
     valid r = false /\ issues r = [WrongDimensions (900, 4200) (3600, 4800)])
  /\ (forall main title wordmark,
     compose_front env fs main title wordmark out = (true, fs') ->
     let r := validate_composition getsize fs' out "sleeve" in
     valid r = false /\ issues r = [WrongDimensions (3600, 4800) (900, 4200)])
  /\ (forall main,
     compose_back env fs main out = (true, fs') ->
     let r := validate_composition getsize fs' out "sleeve" in
     valid r = false /\ issues r = [WrongDimensions (3600, 4800) (900, 4200)]).
Proof.
  intros Hsize. split; [| split].
  - intros logo H. unfold compose_sleeve in H.
    apply compose_single_true in H as (canvas & Hc & ->).
    apply single_canvas_frame in Hc as (template & Ht & Hm & Hs).
    replace (CANVAS_TEMPLATES !! "sleeve") with (Some sleeve_template) in Ht by reflexivity.
    injection Ht as <-.
    destruct (validate_rgba_image getsize (<[out := ImageFile canvas]> fs) out "main"
                canvas main_template n (lookup_insert_eq _ _ _) eq_refl Hsize Hm)
      as (Hv & Hi & _).
    rewrite Hs in Hv, Hi. auto.
  - intros main title wordmark H.
    apply compose_front_true in H as (canvas & Hc & ->).
    apply front_canvas_frame in Hc as [Hm Hs].
    destruct (validate_rgba_image getsize (<[out := ImageFile canvas]> fs) out "sleeve"
                canvas sleeve_template n (lookup_insert_eq _ _ _) eq_refl Hsize Hm)
      as (Hv & Hi & _).
    rewrite Hs in Hv, Hi. auto.
  - intros main H. unfold compose_back in H.
    apply compose_single_true in H as (canvas & Hc & ->).
    apply single_canvas_frame in Hc as (template & Ht & Hm & Hs).
    replace (CANVAS_TEMPLATES !! "main") with (Some main_template) in Ht by reflexivity.
    injection Ht as <-.
    destruct (validate_rgba_image getsize (<[out := ImageFile canvas]> fs) out "sleeve"
                canvas sleeve_template n (lookup_insert_eq _ _ _) eq_refl Hsize Hm)
      as (Hv & Hi & _).
    rewrite Hs in Hv, Hi. auto.
Qed.

(** The dark sleeve of the worked product, checked as a main canvas. *)
Lemma wrong_canvas_type_is_reported_witness :
  let out := "artifacts/cavallo-spettrale/cavallo-spettrale_sleeve_dark.png" in
  let fs' := snd (compose_sleeve Scenario.permissive Scenario.store
                    "generate/logo_black.png" out) in
  let r := validate_composition (fun _ => Ok 2097152) fs' out "main" in
  valid r = false /\ issues r = [WrongDimensions (900, 4200) (3600, 4800)].
Proof.
  intros out fs'.
  destruct (wrong_canvas_type_is_reported (fun _ => Ok 2097152) Scenario.permissive
              Scenario.store fs' out 2097152 eq_refl) as [H _].
  apply (H "generate/logo_black.png").
  vm_compute. reflexivity.
Defined.

End ValidationProps.

(** ** Title rasters and their files *)

Module TitleProps.
Import FontRenderer TitleFiles CurvedText.

(** The dark and the light raster of a title never share a file. *)
Theorem title_paths_differ (product_slug output_dir : string) :
  fst (get_title_file_paths product_slug output_dir)
  <> snd (get_title_file_paths product_slug output_dir).
Proof.
  unfold get_title_file_paths. cbn [fst snd].
  destruct (ComposerVariants.output_path_prefix product_slug output_dir) as [pre Hpre].
  unfold Attempts.output_path in Hpre. rewrite !Hpre.
  intros H. apply String.app_inj in H. discriminate H.
Qed.

Section Render.

Variable load_default : Font.
Variable generate_kebab_slug : list N -> string.
Variable env : Env.
Variable fs : Store.
Variable title_text : list N.
Variable output_dir : string.

Let paths := get_title_file_paths (generate_kebab_slug title_text) output_dir.

(** The shape of every run of [render_title_with_libre_bodoni]: nothing
    returned and nothing written; nothing returned and at most the dark
    raster written; or both paths returned and both rasters written. *)
Lemma render_title_cases :
  let run := render_title_with_libre_bodoni load_default generate_kebab_slug env fs
               title_text output_dir in
  (exists e, run = (Raise e, fs))
  \/ run = (Ok no_title, fs)
  \/ (exists img_dark, run = (Ok no_title, <[fst paths := ImageFile img_dark]> fs))
  \/ (exists img_dark img_light,
        run = (Ok {| dark := Some (fst paths); light := Some (snd paths);
                     title := Some title_text;
                     slug := Some (generate_kebab_slug title_text) |},
               <[snd paths := ImageFile img_light]>
                 (<[fst paths := ImageFile img_dark]> fs))).
Proof.
  unfold render_title_with_libre_bodoni, paths, get_title_file_paths, pil_save.
  cbn [fst snd].
  destruct (os_makedirs env output_dir) as [u|e]; [| left; eauto].
  destruct (negb (os_path_exists fs LIBRE_BODONI_FONT_regular)); [right; left; reflexivity |].
  destruct (draw_curved_text _ _ _ _ _ _ _ dark_text) as [img_dark|e];
    [| right; left; reflexivity].
  destruct (draw_curved_text _ _ _ _ _ _ _ light_text) as [img_light|e];
    [| right; left; reflexivity].
  destruct (save_ok env _); [| right; left; reflexivity].
  destruct (save_ok env _); [| right; right; left; eauto].
  right; right; right. eauto.
Qed.

(** X11.  Render, then look the files up: when title rendering returns a dark
    path, it returned both, they are the paths [get_title_file_paths]
    names for the slug of the title, and [verify_title_files_exist] finds
    both files. *)
Theorem rendered_titles_are_found (result : TitleResult) (fs' : Store) :
  render_title_with_libre_bodoni load_default generate_kebab_slug env fs
    title_text output_dir = (Ok result, fs') ->
  dark result <> None ->
  dark result = Some (fst paths)
  /\ light result = Some (snd paths)
  /\ verify_title_files_exist fs' (generate_kebab_slug title_text) output_dir
     = {| dark_exists := true; light_exists := true;
          dark_path := fst paths; light_path := snd paths; both_exist := true |}.
Proof.
  intros Hrun Hdark.
  pose proof (title_paths_differ (generate_kebab_slug title_text) output_dir) as Hne.
  fold paths in Hne.
  destruct render_title_cases as [[e H] | [H | [[img H] | (img_dark & img_light & H)]]];
    rewrite H in Hrun; try discriminate Hrun;
    injection Hrun as <- <-; try (exfalso; apply Hdark; reflexivity).
  cbn [dark light]. split; [reflexivity |]. split; [reflexivity |].
  unfold verify_title_files_exist, paths, get_title_file_paths in *.
  cbn [fst snd] in *. unfold os_path_exists.
  rewrite lookup_insert_eq, lookup_insert_ne by congruence.
  rewrite lookup_insert_eq. reflexivity.
Qed.

(** X12.  What title rendering leaves on disk: it writes at its two output
    paths and nowhere else, and when it returns no paths the light raster
    was not written (the dark one may have been). *)
Theorem render_title_footprint (result : result TitleResult) (fs' : Store) :
  render_title_with_libre_bodoni load_default generate_kebab_slug env fs
    title_text output_dir = (result, fs') ->
  (forall p, p <> fst paths -> p <> snd paths -> fs' !! p = fs !! p)
  /\ (result = Ok no_title -> fs' !! snd paths = fs !! snd paths).
Proof.
  intros Hrun.
  pose proof (title_paths_differ (generate_kebab_slug title_text) output_dir) as Hne.
  fold paths in Hne.
  destruct render_title_cases as [[e H] | [H | [[img H] | (img_dark & img_light & H)]]];
    rewrite H in Hrun; injection Hrun as <- <-.
  - split; reflexivity.
  - split; reflexivity.
  - split.
    + intros p Hd Hl. apply lookup_insert_ne. intros Heq. apply Hd. symmetry. exact Heq.
    + intros _. apply lookup_insert_ne. exact Hne.
  - split.
    + intros p Hd Hl.
      rewrite lookup_insert_ne by (intros Heq; apply Hl; symmetry; exact Heq).
      apply lookup_insert_ne. intros Heq. apply Hd. symmetry. exact Heq.
    + discriminate.
Qed.

End Render.

(** "Hi" rendered with the worked font. *)
Lemma rendered_titles_are_found_witness :
  let run := render_title_with_libre_bodoni Scenario.builtin_font Scenario.slug_of
               Scenario.permissive Scenario.font_store Scenario.hi "artifacts" in
  both_exist (verify_title_files_exist (snd run) "cavallo-spettrale" "artifacts") = true.
Proof.
  intros run.
  destruct (draw_curved_text_runs Scenario.builtin_font Scenario.font_store Scenario.hi
              LIBRE_BODONI_FONT_regular 180 2400 800 LIBRE_BODONI_FONT_curve dark_text)
    as (img_dark & Hd & _); [right; vm_compute; discriminate | lia | lia | lia |].
  destruct (draw_curved_text_runs Scenario.builtin_font Scenario.font_store Scenario.hi
              LIBRE_BODONI_FONT_regular 180 2400 800 LIBRE_BODONI_FONT_curve light_text)
    as (img_light & Hl & _); [right; vm_compute; discriminate | lia | lia | lia |].
  assert (Hrun : run =
            (Ok {| dark := Some "artifacts/cavallo-spettrale_title_dark.png";
                   light := Some "artifacts/cavallo-spettrale_title_light.png";
                   title := Some Scenario.hi; slug := Some "cavallo-spettrale" |},
             <["artifacts/cavallo-spettrale_title_light.png" := ImageFile img_light]>
               (<["artifacts/cavallo-spettrale_title_dark.png" := ImageFile img_dark]>
                  Scenario.font_store))).
  { unfold run, render_title_with_libre_bodoni.
    change (os_makedirs Scenario.permissive "artifacts") with (@Ok unit tt).
    change (negb (os_path_exists Scenario.font_store LIBRE_BODONI_FONT_regular))
      with false.
    cbv iota. rewrite Hd, Hl. reflexivity. }
  destruct (rendered_titles_are_found Scenario.builtin_font Scenario.slug_of
              Scenario.permissive Scenario.font_store Scenario.hi "artifacts" _ _ Hrun)
    as (_ & _ & Hfound); [discriminate |].
  change (Scenario.slug_of Scenario.hi) with "cavallo-spettrale" in Hfound.
  rewrite Hrun. cbn [snd]. rewrite Hfound. reflexivity.
Defined.

(** The same run, seen from the store. *)
Lemma render_title_footprint_witness :
  let run := render_title_with_libre_bodoni Scenario.builtin_font Scenario.slug_of
               Scenario.permissive Scenario.font_store Scenario.hi "artifacts" in
  snd run !! "upscaled/cavallo-spettrale.png" = None.
Proof.
  intros run.
  destruct (render_title_footprint Scenario.builtin_font Scenario.slug_of
              Scenario.permissive Scenario.font_store Scenario.hi "artifacts"
              (fst run) (snd run)) as [H _].
  - apply surjective_pairing.
  - rewrite H; [reflexivity | vm_compute; discriminate | vm_compute; discriminate].
Defined.

End TitleProps.

(** ** The arc: failure, colour, sign and rotation *)

Module ArcProps.
Import FontRenderer CurvedText.

Local Open Scope R_scope.

Lemma py_div_inv (a b r : R) : py_div a b = Ok r -> b <> 0 /\ r = a / b.
Proof.
  unfold py_div. destruct (Req_dec_T b 0); [discriminate |].
  intros [= <-]. split; [assumption | reflexivity].
Qed.

Lemma pil_new_nonneg (mode : Mode) (w h : Z) (fill : Color) (img : Image) :
  pil_new mode (w, h) fill = Ok img -> (0 <= w)%Z /\ (0 <= h)%Z.
Proof.
  unfold pil_new. destruct (Z.ltb_spec w 0); [discriminate |].
  destruct (Z.ltb_spec h 0); [discriminate |]. intros _. lia.
Qed.


Lemma radius_divisor_opp (curve_strength : R) :
  radius_divisor (- curve_strength) = radius_divisor curve_strength.
Proof. unfold radius_divisor. rewrite Rabs_Ropp. reflexivity. Qed.

Section Loop.

Variable font : Font.
Variable font_size : Z.
Variables center_x center_y : Z.
Variable radius : R.

(** A loop that ran through a text that is not empty divided by the
    radius and made a tile. *)
Lemma draw_chars_inv color curve_strength (text : list N) :
  forall (st st' : R * Image),
  draw_chars font font_size color center_x center_y radius curve_strength st text
    = Ok st' ->
  text = [] \/ (radius <> 0 /\ (0 <= font_size)%Z).
Proof.
  destruct text as [|char rest]; [auto |]. intros [current_x img] st' H. right.
  cbn [draw_chars] in H. apply bind_Ok_inv in H as (st1 & H & _).
  unfold draw_char in H.
  apply bind_Ok_inv in H as (angle & Hangle & H).
  apply bind_Ok_inv in H as (tile & Htile & _).
  apply py_div_inv in Hangle as [Hr _].
  apply pil_new_nonneg in Htile as [Hfs _].
  split; [exact Hr | lia].
Qed.

(** Rotation and horizontal placement do not read the sign of the
    curvature. *)
Lemma run_glyphs_sign (c1 c2 : R) (text : list N) : forall current_x,
  map (fun g => (g_char g, g_degrees g, fst (g_dest g)))
    (run_glyphs font font_size center_x center_y radius c1 current_x text)
  = map (fun g => (g_char g, g_degrees g, fst (g_dest g)))
      (run_glyphs font font_size center_x center_y radius c2 current_x text).
Proof.
  induction text as [|char rest IH]; intros current_x; [reflexivity |].
  cbn [run_glyphs map]. rewrite IH. reflexivity.
Qed.

End Loop.

Section Rotation.

Variable font : Font.
Variable font_size : Z.
Variables center_x center_y : Z.
Variables divisor width curve_strength : R.
Hypothesis divisor_pos : 0 < divisor.
Hypothesis width_pos : 0 < width.



End Rotation.

Section Draw.

Variable load_default : Font.
Variable fs : Store.
Variable text : list N.
Variable font_path : string.
Variable font_size : Z.
Variables w h : Z.

Let font := load_font load_default fs font_path font_size.
Let tw := text_width font text.

Lemma draw_curved_text_inv (curve_strength : R) (color : Color) (img : Image) :
  draw_curved_text load_default fs text font_path font_size (w, h)
    curve_strength color = Ok img ->
  (0 <= w)%Z /\ (0 <= h)%Z /\ (text = [] \/ (tw <> 0%Z /\ (0 <= font_size)%Z)).
Proof.
  unfold draw_curved_text. fold font. fold tw. intros H.
  apply bind_Ok_inv in H as (radius & Hradius & H).
  apply bind_Ok_inv in H as (blank & Hblank & H).
  apply bind_Ok_inv in H as (st & Hloop & _).
  apply pil_new_nonneg in Hblank as [Hw Hh].
  apply py_div_inv in Hradius as [_ ->].
  split; [exact Hw |]. split; [exact Hh |].
  apply draw_chars_inv in Hloop as [Hnil | [Hr Hfs]]; [left; exact Hnil | right].
  split; [| exact Hfs]. intros Hz. apply Hr. rewrite Hz. apply radius_of_no_width.
Qed.

Lemma draw_curved_text_total (curve_strength : R) (color : Color) :
  (0 <= w)%Z -> (0 <= h)%Z ->
  text = [] \/ (tw <> 0%Z /\ (0 <= font_size)%Z) ->
  exists img,
    draw_curved_text load_default fs text font_path font_size (w, h)
      curve_strength color = Ok img
    /\ im_mode img = RGBA
    /\ im_size img = (w, h)
    /\ glyphs (im_data img) =
        run_glyphs font font_size (w / 2) (h / 2 + 50)
          (IZR tw / radius_divisor curve_strength) curve_strength
          (- IZR tw / 2) text.
Proof.
  intros Hw Hh [Hnil | [Htw Hfs]].
  - unfold draw_curved_text. fold font. fold tw.
    rewrite py_div_Ok by apply radius_divisor_nonzero. rewrite bind_Ok.
    rewrite pil_new_Ok by assumption. rewrite bind_Ok. rewrite Hnil.
    eexists. cbn [draw_chars]. rewrite bind_Ok. cbn [snd]. repeat split.
  - apply draw_curved_text_runs; auto.
Qed.


(** X14.  The colour does not move a tile: when the text can be drawn in one
    colour it can be drawn in any other, and the two rasters carry the same
    characters at the same rotations and positions. *)
Theorem colour_does_not_move_tiles (curve_strength : R) (color1 color2 : Color)
    (img1 : Image) :
  draw_curved_text load_default fs text font_path font_size (w, h)
    curve_strength color1 = Ok img1 ->
  exists img2,
    draw_curved_text load_default fs text font_path font_size (w, h)
      curve_strength color2 = Ok img2
    /\ im_size img2 = im_size img1
    /\ glyphs (im_data img2) = glyphs (im_data img1).
Proof.
  intros H1. pose proof (draw_curved_text_inv _ _ _ H1) as (Hw & Hh & Hdeg).
  destruct (draw_curved_text_total curve_strength color1 Hw Hh Hdeg)
    as (img1' & H1' & _ & Hs1 & Hg1).
  rewrite H1 in H1'. injection H1' as <-.
  destruct (draw_curved_text_total curve_strength color2 Hw Hh Hdeg)
    as (img2 & H2 & _ & Hs2 & Hg2).
  exists img2. split; [exact H2 |]. split; congruence.
Qed.

(** X15.  The sign of the curvature chooses the side the arc bends to and
    nothing else: with the sign flipped the text is drawn again, and every
    tile keeps its character, its rotation and its horizontal position. *)
Theorem curvature_sign_keeps_rotation (curve_strength : R) (color : Color)
    (img : Image) :
  draw_curved_text load_default fs text font_path font_size (w, h)
    curve_strength color = Ok img ->
  exists img',
    draw_curved_text load_default fs text font_path font_size (w, h)
      (- curve_strength) color = Ok img'
    /\ map (fun g => (g_char g, g_degrees g, fst (g_dest g))) (glyphs (im_data img'))
       = map (fun g => (g_char g, g_degrees g, fst (g_dest g))) (glyphs (im_data img)).
Proof.
  intros H. pose proof (draw_curved_text_inv _ _ _ H) as (Hw & Hh & Hdeg).
  destruct (draw_curved_text_total curve_strength color Hw Hh Hdeg)
    as (img0 & H0 & _ & _ & Hg).
  rewrite H in H0. injection H0 as <-.
  destruct (draw_curved_text_total (- curve_strength) color Hw Hh Hdeg)
    as (img' & H' & _ & _ & Hg').
  exists img'. split; [exact H' |].
  rewrite Hg', Hg, radius_divisor_opp. apply run_glyphs_sign.
Qed.


End Draw.

Lemma hi_is_drawn (curve_strength : R) (color : Color) :
  exists img,
    draw_curved_text Scenario.builtin_font Scenario.font_store Scenario.hi
      LIBRE_BODONI_FONT_regular 180 (2400, 800)%Z curve_strength color = Ok img.
Proof.
  destruct (draw_curved_text_runs Scenario.builtin_font Scenario.font_store Scenario.hi
              LIBRE_BODONI_FONT_regular 180 2400 800 curve_strength color)
    as (img & H & _); [right; vm_compute; discriminate | lia | lia | lia |].
  exists img. exact H.
Qed.


(** "Hi" in the two title colours. *)
Lemma colour_does_not_move_tiles_witness :
  exists img_dark img_light,
    draw_curved_text Scenario.builtin_font Scenario.font_store Scenario.hi
      LIBRE_BODONI_FONT_regular 180 (2400, 800)%Z LIBRE_BODONI_FONT_curve dark_text
    = Ok img_dark
    /\ draw_curved_text Scenario.builtin_font Scenario.font_store Scenario.hi
         LIBRE_BODONI_FONT_regular 180 (2400, 800)%Z LIBRE_BODONI_FONT_curve light_text
       = Ok img_light
    /\ glyphs (im_data img_light) = glyphs (im_data img_dark).
Proof.
  destruct (hi_is_drawn LIBRE_BODONI_FONT_curve dark_text) as [img_dark Hd].
  destruct (colour_does_not_move_tiles Scenario.builtin_font Scenario.font_store
              Scenario.hi LIBRE_BODONI_FONT_regular 180 2400 800
              LIBRE_BODONI_FONT_curve dark_text light_text img_dark Hd)
    as (img_light & Hl & _ & Hg).
  exists img_dark, img_light. auto.
Defined.

(** "Hi" bent down and bent up. *)
Lemma curvature_sign_keeps_rotation_witness :
  exists img img',
    draw_curved_text Scenario.builtin_font Scenario.font_store Scenario.hi
      LIBRE_BODONI_FONT_regular 180 (2400, 800)%Z LIBRE_BODONI_FONT_curve dark_text
    = Ok img
    /\ draw_curved_text Scenario.builtin_font Scenario.font_store Scenario.hi
         LIBRE_BODONI_FONT_regular 180 (2400, 800)%Z (- LIBRE_BODONI_FONT_curve)
         dark_text
       = Ok img'
    /\ map g_degrees (glyphs (im_data img')) = map g_degrees (glyphs (im_data img)).
Proof.
  destruct (hi_is_drawn LIBRE_BODONI_FONT_curve dark_text) as [img H].
  destruct (curvature_sign_keeps_rotation Scenario.builtin_font Scenario.font_store
              Scenario.hi LIBRE_BODONI_FONT_regular 180 2400 800
              LIBRE_BODONI_FONT_curve dark_text img H)
    as (img' & H' & Hg).
  exists img, img'. split; [exact H |]. split; [exact H' |].
  apply (f_equal (map (fun t : N * R * Z => snd (fst t)))) in Hg.
  rewrite !map_map in Hg. exact Hg.
Defined.


End ArcProps.

(** ** Slugs *)

Module SlugProps.
Import TextUtils.

Local Open Scope N_scope.

(** *** Prefixes, infixes and stripping *)

Lemma startswith_spec (s prefix : list N) :
  startswith s prefix = true <-> exists rest, s = (prefix ++ rest)%list.
Proof.
  revert s. induction prefix as [|p prefix IH]; intros s; cbn [startswith].
  - split; [intros _; exists s; reflexivity | reflexivity].
  - destruct s as [|c s]; [split; [discriminate | intros [rest H]; discriminate H] |].
    rewrite andb_true_iff, N.eqb_eq, IH. split.
    + intros [-> [rest ->]]. exists rest. reflexivity.
    + intros [rest H]. injection H as -> ->. eauto.
Qed.

Lemma contains_spec (s sub : list N) :
  contains s sub = true <-> exists l1 l2, s = (l1 ++ sub ++ l2)%list.
Proof.
  induction s as [|c s IH]; cbn [contains]; rewrite orb_true_iff, startswith_spec.
  - split.
    + intros [[rest H] | H]; [exists [], rest; exact H | discriminate H].
    + intros (l1 & l2 & H). left. destruct l1 as [|x l1]; [| discriminate H].
      exists l2. exact H.
  - rewrite IH. split.
    + intros [[rest H] | (l1 & l2 & H)]; [exists [], rest; exact H |].
      exists (c :: l1), l2. rewrite H. reflexivity.
    + intros (l1 & l2 & H). destruct l1 as [|x l1]; [left; exists l2; exact H |].
      right. injection H as -> ->. eauto.
Qed.

Lemma contains_infix (s sub pre post : list N) :
  contains s sub = true -> contains (pre ++ s ++ post) sub = true.
Proof.
  rewrite !contains_spec. intros (l1 & l2 & ->).
  exists (pre ++ l1)%list, (l2 ++ post)%list. rewrite <- !app_assoc. reflexivity.
Qed.

Lemma lstrip_suffix (chars : N -> bool) (s : list N) :
  exists pre, s = (pre ++ lstrip chars s)%list /\ forallb chars pre = true.
Proof.
  induction s as [|c s (pre & IH & Hpre)]; [exists []; auto |].
  cbn [lstrip]. destruct (chars c) eqn:Hc; [| exists []; auto].
  exists (c :: pre). cbn [forallb]. rewrite Hc, Hpre. rewrite IH at 1. auto.
Qed.

Lemma lstrip_head (chars : N -> bool) (s : list N) (c : N) (rest : list N) :
  lstrip chars s = c :: rest -> chars c = false.
Proof.
  induction s as [|x s IH]; [discriminate |]. cbn [lstrip].
  destruct (chars x) eqn:Hx; [exact IH |]. intros [= <- _]. exact Hx.
Qed.

Lemma rstrip_prefix (chars : N -> bool) (s : list N) :
  exists post, s = (rstrip chars s ++ post)%list /\ forallb chars post = true.
Proof.
  unfold rstrip. destruct (lstrip_suffix chars (rev s)) as (pre & H & Hpre).
  exists (rev pre). split.
  - rewrite <- rev_app_distr, <- H, rev_involutive. reflexivity.
  - rewrite forallb_forall in *. intros x Hx. apply Hpre, in_rev, Hx.
Qed.

Lemma strip_infix (chars : N -> bool) (s : list N) :
  exists pre post,
    s = (pre ++ strip chars s ++ post)%list
    /\ forallb chars pre = true /\ forallb chars post = true.
Proof.
  unfold strip. destruct (lstrip_suffix chars s) as (pre & H & Hpre).
  destruct (rstrip_prefix chars (lstrip chars s)) as (post & H' & Hpost).
  exists pre, post. rewrite <- H', <- H. auto.
Qed.

Lemma strip_Forall (P : N -> Prop) (chars : N -> bool) (s : list N) :
  Forall P s -> Forall P (strip chars s).
Proof.
  destruct (strip_infix chars s) as (pre & post & H & _). rewrite H at 1.
  rewrite !Forall_app. tauto.
Qed.

(** A stripped string neither starts nor ends with a stripped
    character. *)
Lemma strip_head (chars : N -> bool) (s : list N) (c : N) (rest : list N) :
  strip chars s = c :: rest -> chars c = false.
Proof.
  intros H. destruct (rstrip_prefix chars (lstrip chars s)) as (post & Hpost & _).
  fold (strip chars s) in Hpost. rewrite H in Hpost.
  apply (lstrip_head chars s c (rest ++ post)%list). exact Hpost.
Qed.

Lemma strip_last (chars : N -> bool) (s : list N) (c : N) (rest : list N) :
  rev (strip chars s) = c :: rest -> chars c = false.
Proof.
  unfold strip, rstrip. rewrite rev_involutive. apply lstrip_head.
Qed.

Lemma filter_lstrip (keep chars : N -> bool) (s : list N) :
  (forall c, chars c = true -> keep c = false) ->
  List.filter keep (lstrip chars s) = List.filter keep s.
Proof.
  intros H. destruct (lstrip_suffix chars s) as (pre & Hs & Hpre).
  rewrite Hs at 2. rewrite List.filter_app.
  assert (Hnil : List.filter keep pre = []).
  { clear Hs. induction pre as [|c pre IH]; [reflexivity |].
    cbn [forallb] in Hpre. apply andb_true_iff in Hpre as [Hc Hpre].
    cbn [List.filter]. rewrite (H c Hc). apply IH, Hpre. }
  rewrite Hnil. reflexivity.
Qed.

Lemma filter_strip (keep chars : N -> bool) (s : list N) :
  (forall c, chars c = true -> keep c = false) ->
  List.filter keep (strip chars s) = List.filter keep s.
Proof.
  intros H. destruct (strip_infix chars s) as (pre & post & Hs & Hpre & Hpost).
  assert (Hnil : forall l, forallb chars l = true -> List.filter keep l = []).
  { induction l as [|c l IH]; [reflexivity |]. cbn [forallb]. intros Hl.
    apply andb_true_iff in Hl as [Hc Hl]. cbn [List.filter].
    rewrite (H c Hc). apply IH, Hl. }
  rewrite Hs at 2. rewrite !List.filter_app, (Hnil pre Hpre), (Hnil post Hpost).
  rewrite app_nil_r. reflexivity.
Qed.

Lemma filter_filter_absorb (keep keep' : N -> bool) (s : list N) :
  (forall c, keep c = true -> keep' c = true) ->
  List.filter keep (List.filter keep' s) = List.filter keep s.
Proof.
  intros H. induction s as [|c s IH]; [reflexivity |]. cbn [List.filter].
  destruct (keep c) eqn:Ec.
  - rewrite (H c Ec). cbn [List.filter]. rewrite Ec, IH. reflexivity.
  - destruct (keep' c); [cbn [List.filter]; rewrite Ec |]; exact IH.
Qed.

(** *** Runs *)

Lemma sub_runs_Forall (P : N -> Prop) (class : N -> bool) (rep s : list N) :
  Forall P rep ->
  Forall (fun c => class c = false -> P c) s ->
  Forall P (sub_runs class rep s).
Proof.
  intros Hrep. induction s as [|c s IH]; intros Hs; [apply Forall_nil_2 |].
  apply Forall_cons in Hs as [Hc Hs]. specialize (IH Hs). cbn [sub_runs].
  destruct (class c) eqn:Ec.
  - destruct s as [|c' s]; [exact Hrep |].
    destruct (class c'); [exact IH | apply Forall_app; auto].
  - apply Forall_cons. auto.
Qed.

Lemma filter_sub_runs (keep class : N -> bool) (rep s : list N) :
  (forall c, class c = true -> keep c = false) ->
  List.filter keep rep = [] ->
  List.filter keep (sub_runs class rep s) = List.filter keep s.
Proof.
  intros H Hrep. induction s as [|c s IH]; [reflexivity |]. cbn [sub_runs].
  destruct (class c) eqn:Ec.
  - cbn [List.filter]. rewrite (H c Ec). destruct s as [|c' s]; [exact Hrep |].
    destruct (class c'); [exact IH |].
    rewrite List.filter_app, Hrep. exact IH.
  - cbn [List.filter]. rewrite IH. reflexivity.
Qed.

Lemma contains_double_cons (c : N) (s : list N) :
  contains (c :: s) (codes "--")
  = (is_hyphen c && match s with c' :: _ => is_hyphen c' | [] => false end)
    || contains s (codes "--").
Proof.
  change (codes "--") with [hyphen; hyphen]. cbn [contains startswith].
  unfold is_hyphen. destruct s as [|c' s]; rewrite ?andb_true_r; reflexivity.
Qed.

(** After [re.sub(r'-+', '-', _)] no two hyphens are adjacent. *)
Lemma sub_runs_hyphen_single (s : list N) :
  contains (sub_runs is_hyphen (codes "-") s) (codes "--") = false.
Proof.
  induction s as [|c s IH]; [reflexivity |].
  cbn [sub_runs]. destruct (is_hyphen c) eqn:Ec.
  - destruct s as [|c' s]; [reflexivity |].
    destruct (is_hyphen c') eqn:Ec'; [exact IH |].
    cbn [sub_runs] in *. rewrite Ec' in *.
    change (codes "-" ++ c' :: sub_runs is_hyphen (codes "-") s)%list
      with (hyphen :: c' :: sub_runs is_hyphen (codes "-") s).
    rewrite contains_double_cons, Ec', andb_false_r. exact IH.
  - rewrite contains_double_cons, Ec. exact IH.
Qed.

(** *** Slugs *)

Lemma space_not_alnum (c : N) : is_space c = true -> alnum c = false.
Proof.
  unfold is_space, alnum, is_lower, is_digit. intros H.
  rewrite !orb_true_iff, !andb_true_iff, !N.leb_le, !N.eqb_eq in H.
  apply orb_false_iff. split; apply andb_false_iff; rewrite !N.leb_gt; lia.
Qed.

Lemma hyphen_not_alnum (c : N) : is_hyphen c = true -> alnum c = false.
Proof.
  unfold is_hyphen, hyphen, alnum, is_lower, is_digit. rewrite N.eqb_eq. intros ->.
  reflexivity.
Qed.

Lemma Forall_rev_head (P : N -> Prop) (s : list N) (c : N) (rest : list N) :
  Forall P s -> rev s = c :: rest -> P c.
Proof.
  intros Hs Hrev. rewrite Forall_forall in Hs. apply Hs.
  apply list_elem_of_In, in_rev. rewrite Hrev. left. reflexivity.
Qed.

(** What [validate_slug] reports on a string of slug characters with
    single hyphens inside only. *)
Lemma validate_slug_shaped (s : list N) :
  Forall (fun c => slug_char c = true) s ->
  contains s (codes "--") = false ->
  startswith s (codes "-") = false ->
  endswith s (codes "-") = false ->
  validate_slug s =
  {| valid := (3 <=? length s)%nat;
     slug := s;
     issues := match s with
               | [] => [TooShort; BadCharacters]
               | _ => if (length s <? 3)%nat then [TooShort] else []
               end;
     warnings := if (50 <? length s)%nat then [TooLong] else [] |}.
Proof.
  intros Hchars Hdouble Hstart Hend. unfold validate_slug.
  rewrite Hdouble, Hstart, Hend. cbn [orb].
  assert (Hnl : endswith s [10] = false).
  { unfold endswith. destruct (rev s) as [|c rest] eqn:Hrev; [reflexivity |].
    pose proof (Forall_rev_head _ s c rest Hchars Hrev) as Hc.
    cbn [rev app startswith]. rewrite andb_true_r. apply N.eqb_neq. intros ->.
    discriminate Hc. }
  unfold match_slug_pattern. rewrite Hnl.
  destruct s as [|c s]; [reflexivity |].
  assert (Hall : forallb (fun c => is_lower c || is_digit c || is_hyphen c) (c :: s)
                 = true).
  { apply forallb_forall. intros x Hx. rewrite Forall_forall in Hchars.
    apply Hchars, list_elem_of_In, Hx. }
  rewrite Hall. cbn [negb].
  destruct (Nat.ltb_spec (length (c :: s)) 3) as [Hshort | Hlong].
  - destruct (Nat.leb_spec 3 (length (c :: s))); [lia |].
    destruct (Nat.ltb_spec 50 (length (c :: s))); [lia |]. reflexivity.
  - destruct (Nat.leb_spec 3 (length (c :: s))); [| lia].
    destruct (Nat.ltb_spec 50 (length (c :: s))); reflexivity.
Qed.

(** *** Numbered slugs *)

Lemma codes_inj (s t : string) : codes s = codes t -> s = t.
Proof.
  unfold codes. intros H.
  rewrite <- (string_of_list_ascii_of_string s), <- (string_of_list_ascii_of_string t).
  f_equal. revert H. generalize (list_ascii_of_string s) (list_ascii_of_string t).
  induction l as [|a l IH]; intros [|b l'] H; try discriminate H; [reflexivity |].
  cbn [map] in H. injection H as Hab Hl.
  apply (f_equal ascii_of_N) in Hab. rewrite !ascii_N_embedding in Hab.
  rewrite Hab, (IH l' Hl). reflexivity.
Qed.

Lemma numbered_inj (base_slug : list N) (i j : N) :
  numbered base_slug i = numbered base_slug j -> i = j.
Proof.
  unfold numbered. intros H. apply app_inv_head, app_inv_head in H.
  apply codes_inj in H. apply (inj pretty). exact H.
Qed.

Section Counter.

Variable existing_slugs : list (list N).
Variable base_slug : list N.

Lemma free_counter_Some (fuel : nat) : forall counter found,
  free_counter existing_slugs base_slug fuel counter = Some found ->
  counter <= found
  /\ (numbered base_slug found ∉ existing_slugs)
  /\ forall j, counter <= j < found -> numbered base_slug j ∈ existing_slugs.
Proof.
  induction fuel as [|fuel IH]; intros counter found; [discriminate |].
  cbn [free_counter]. case_bool_decide as Hin.
  - intros H. apply IH in H as (Hle & Hfree & Hmin).
    split; [lia |]. split; [exact Hfree |]. intros j Hj.
    destruct (decide (j = counter)) as [-> | Hne]; [exact Hin | apply Hmin; lia].
  - intros [= <-]. split; [lia |]. split; [exact Hin |]. intros j Hj. lia.
Qed.

Lemma free_counter_None (fuel : nat) : forall counter,
  free_counter existing_slugs base_slug fuel counter = None ->
  forall i, (i < fuel)%nat ->
    numbered base_slug (counter + N.of_nat i) ∈ existing_slugs.
Proof.
  induction fuel as [|fuel IH]; intros counter H i Hi; [lia |].
  cbn [free_counter] in H. case_bool_decide as Hin; [| discriminate H].
  destruct i as [|i]; [rewrite N.add_0_r; exact Hin |].
  replace (counter + N.of_nat (S i)) with (counter + 1 + N.of_nat i) by lia.
  apply IH; [exact H | lia].
Qed.

(** The loop stops within as many rounds as there are existing slugs,
    and one more. *)
Lemma free_counter_returns (fuel : nat) (counter : N) :
  (length existing_slugs < fuel)%nat ->
  exists found, free_counter existing_slugs base_slug fuel counter = Some found.
Proof.
  intros Hfuel.
  destruct (free_counter existing_slugs base_slug fuel counter) as [found|] eqn:E;
    [eauto |].
  exfalso. pose proof (free_counter_None fuel counter E) as Hall.
  set (candidates := (fun i => numbered base_slug (counter + N.of_nat i)) <$> seq 0 fuel).
  assert (Hnodup : NoDup candidates).
  { apply NoDup_fmap_2; [| apply NoDup_seq].
    intros i j Hij. apply numbered_inj in Hij. lia. }
  assert (Hsub : candidates ⊆+ existing_slugs).
  { apply NoDup_submseteq; [exact Hnodup |]. intros x Hx.
    apply list_elem_of_fmap in Hx as (i & -> & Hi). apply Hall.
    apply elem_of_seq in Hi. lia. }
  apply submseteq_length in Hsub. unfold candidates in Hsub.
  rewrite length_fmap, length_seq in Hsub. lia.
Qed.

End Counter.

Section Slug.

Variable normalize_NFD : list N -> list N.
Variable category_is_Mn : N -> bool.
Variable lower : list N -> list N.

Local Abbreviation slug_of :=
  (generate_kebab_slug normalize_NFD category_is_Mn lower).

Lemma kebab_chars (filename : list N) :
  Forall (fun c => slug_char c = true) (slug_of filename).
Proof.
  unfold generate_kebab_slug. apply strip_Forall.
  apply sub_runs_Forall; [repeat constructor |].
  eapply Forall_impl; [| intros c Hc _; exact Hc].
  apply sub_runs_Forall; [repeat constructor |].
  apply strip_Forall. apply Forall_forall. intros c Hc Hsp.
  apply list_elem_of_In, List.filter_In in Hc as [_ Hc].
  rewrite Hsp, orb_false_r in Hc. unfold slug_char. rewrite Hc. reflexivity.
Qed.

Lemma kebab_single_hyphens (filename : list N) :
  contains (slug_of filename) (codes "--") = false.
Proof.
  unfold generate_kebab_slug.
  match goal with |- contains (strip _ ?t) _ = _ =>
    destruct (strip_infix is_hyphen t) as (pre & post & H & _);
    pose proof (sub_runs_hyphen_single
                  (sub_runs is_space (codes "-")
                     (strip is_space
                        (List.filter (fun c => is_lower c || is_digit c || is_space c)
                           (sub_runs is_space (codes " ")
                              (strip_article
                                 (lower (remove_accents normalize_NFD category_is_Mn
                                          (if contains filename (codes ".")
                                           then rsplit1_head 46 filename
                                           else filename)))
                                 articles)))))) as Hsingle;
    destruct (contains (strip is_hyphen t) (codes "--")) eqn:E; [| reflexivity]
  end.
  apply (contains_infix _ _ pre post) in E. rewrite <- H in E.
  rewrite Hsingle in E. discriminate E.
Qed.

Lemma kebab_edges (filename : list N) :
  startswith (slug_of filename) (codes "-") = false
  /\ endswith (slug_of filename) (codes "-") = false.
Proof.
  unfold generate_kebab_slug, endswith. split.
  - match goal with |- startswith ?s _ = _ => destruct s as [|c rest] eqn:E end;
      [reflexivity |].
    apply strip_head in E. cbn [codes list_ascii_of_string map startswith].
    unfold is_hyphen in E. rewrite andb_true_r. exact E.
  - match goal with |- startswith ?s _ = _ => destruct s as [|c rest] eqn:E end;
      [reflexivity |].
    apply strip_last in E. cbn [codes list_ascii_of_string map rev app startswith].
    unfold is_hyphen in E. rewrite andb_true_r. exact E.
Qed.

(** X17.  Generate, then validate: a generated slug has lower-case letters,
    digits and single inner hyphens only, so [validate_slug] accepts it
    exactly when it has three characters or more; the one other issue it
    can raise is the pattern check, on the empty slug. *)
Theorem generated_slug_validates (filename : list N) :
  validate_slug (slug_of filename) =
  {| valid := (3 <=? length (slug_of filename))%nat;
     slug := slug_of filename;
     issues := match slug_of filename with
               | [] => [TooShort; BadCharacters]
               | _ => if (length (slug_of filename) <? 3)%nat then [TooShort] else []
               end;
     warnings := if (50 <? length (slug_of filename))%nat then [TooLong] else [] |}.
Proof.
  apply validate_slug_shaped.
  - apply kebab_chars.
  - apply kebab_single_hyphens.
  - apply kebab_edges.
  - apply kebab_edges.
Qed.

(** X18.  The slug without its hyphens is, in order, the [[a-z0-9]] characters
    of the prepared name: every other character of the name is dropped or
    becomes a hyphen, a hyphen of the name included. *)
Theorem slug_keeps_letters_and_digits (filename : list N) :
  List.filter (fun c => negb (is_hyphen c)) (slug_of filename)
  = List.filter alnum (prepared normalize_NFD category_is_Mn lower filename).
Proof.
  transitivity (List.filter alnum (slug_of filename)).
  - pose proof (kebab_chars filename) as H.
    induction H as [|c s Hc _ IH]; [reflexivity |].
    cbn [List.filter]. rewrite IH. unfold slug_char in Hc. fold (alnum c) in Hc.
    destruct (is_hyphen c) eqn:Eh.
    + rewrite (hyphen_not_alnum c Eh). reflexivity.
    + rewrite orb_false_r in Hc. rewrite Hc. reflexivity.
  - unfold generate_kebab_slug, prepared.
    rewrite (filter_strip alnum is_hyphen) by apply hyphen_not_alnum.
    rewrite (filter_sub_runs alnum is_hyphen) by (apply hyphen_not_alnum || reflexivity).
    rewrite (filter_sub_runs alnum is_space) by (apply space_not_alnum || reflexivity).
    rewrite (filter_strip alnum is_space) by apply space_not_alnum.
    rewrite filter_filter_absorb
      by (intros c Hc; unfold alnum in Hc; rewrite Hc; reflexivity).
    rewrite (filter_sub_runs alnum is_space) by (apply space_not_alnum || reflexivity).
    reflexivity.
Qed.

(** X19.  As long as the loop has rounds enough, as many as there are existing
    slugs and one more, [generate_unique_slug] returns, and what it returns
    is new: the slug of the file name where that is not taken, else that
    slug numbered with the first counter from 2 on that is free. *)
Theorem unique_slug_is_new (fuel : nat) (filename : list N)
    (existing_slugs : list (list N)) :
  (length existing_slugs < fuel)%nat ->
  exists slug,
    generate_unique_slug normalize_NFD category_is_Mn lower fuel filename
      existing_slugs = Some slug
    /\ (slug ∉ existing_slugs)
    /\ (slug_of filename ∉ existing_slugs -> slug = slug_of filename)
    /\ (slug_of filename ∈ existing_slugs ->
        exists counter,
          2 <= counter
          /\ slug = numbered (slug_of filename) counter
          /\ forall j, 2 <= j < counter ->
               numbered (slug_of filename) j ∈ existing_slugs).
Proof.
  intros Hfuel. unfold generate_unique_slug.
  destruct (decide (slug_of filename ∈ existing_slugs)) as [Hin | Hout].
  - rewrite (bool_decide_eq_true_2 _ Hin).
    destruct (free_counter_returns existing_slugs (slug_of filename) fuel 2 Hfuel)
      as [counter Hc].
    rewrite Hc. cbn. exists (numbered (slug_of filename) counter).
    apply free_counter_Some in Hc as (Hle & Hfree & Hmin).
    split; [reflexivity |]. split; [exact Hfree |]. split; [contradiction |].
    intros _. exists counter. auto.
  - rewrite (bool_decide_eq_false_2 _ Hout). exists (slug_of filename).
    split; [reflexivity |]. split; [exact Hout |]. split; [reflexivity |].
    contradiction.
Qed.

End Slug.

Section Batch.

Variable normalize_NFD : list N -> list N.
Variable category_is_Mn : N -> bool.
Variable lower : list N -> list N.

Lemma batch_step_invariant (fuel done : nat) (result : Batch)
    (existing_slugs : list (list N)) (filename : list N) :
  (done < fuel)%nat ->
  batch_invariant done result existing_slugs ->
  exists result' existing_slugs',
    batch_step normalize_NFD category_is_Mn lower fuel (result, existing_slugs) filename
    = Some (result', existing_slugs')
    /\ stats_total (stats result') = stats_total (stats result)
    /\ batch_invariant (S done) result' existing_slugs'.
Proof.
  intros Hfuel [Hknown Hdistinct Hvalid Hcount Hparts Hdup Hlen].
  destruct (unique_slug_is_new normalize_NFD category_is_Mn lower fuel filename
              existing_slugs) as (slug & Hslug & Hnew & _); [lia |].
  unfold batch_step. rewrite Hslug. cbn [mbind option_bind].
  destruct (valid (validate_slug slug)) eqn:Hv.
  - assert (Hinv : forall dups n,
              (n <= stats_valid (stats result) + 1)%Z ->
              n = Z.of_nat (length dups) ->
              batch_invariant (S done)
                {| mappings := <[filename := slug]> (mappings result);
                   duplicates_found := dups;
                   invalid_slugs := invalid_slugs result;
                   stats := {| stats_total := stats_total (stats result);
                               stats_valid := (stats_valid (stats result) + 1)%Z;
                               stats_duplicates := n;
                               stats_invalid := stats_invalid (stats result) |} |}
                (existing_slugs ++ [slug])).
    { intros dups n Hn Hdups. split; cbn [mappings stats stats_valid stats_invalid
        stats_duplicates duplicates_found invalid_slugs].
      - intros f s. destruct (decide (f = filename)) as [-> | Hne].
        + rewrite lookup_insert_eq. intros [= <-]. apply elem_of_app. right.
          apply list_elem_of_here.
        + rewrite lookup_insert_ne by congruence. intros H.
          apply elem_of_app. left. eapply Hknown, H.
      - intros f1 f2 s.
        destruct (decide (f1 = filename)) as [-> | Hne1];
          destruct (decide (f2 = filename)) as [-> | Hne2];
          rewrite ?lookup_insert_eq, ?lookup_insert_ne by congruence.
        + reflexivity.
        + intros [= <-] H2. exfalso. apply Hnew. eapply Hknown, H2.
        + intros H1 [= <-]. exfalso. apply Hnew. eapply Hknown, H1.
        + apply Hdistinct.
      - intros f s. destruct (decide (f = filename)) as [-> | Hne].
        + rewrite lookup_insert_eq. intros [= <-]. exact Hv.
        + rewrite lookup_insert_ne by congruence. apply Hvalid.
      - lia.
      - exact Hparts.
      - split; [exact Hn | exact Hdups].
      - rewrite length_app. cbn [length]. lia. }
    case_bool_decide.
    + eexists _, _. split; [reflexivity |]. split; [reflexivity |].
      apply Hinv; [lia |]. rewrite length_app. cbn [length]. lia.
    + eexists _, _. split; [reflexivity |]. split; [reflexivity |].
      apply Hinv; [lia | apply Hdup].
  - eexists _, _. split; [reflexivity |]. split; [reflexivity |].
    split; cbn [mappings stats stats_valid stats_invalid stats_duplicates
                duplicates_found invalid_slugs]; try assumption; try lia.
    + rewrite length_app. cbn [length]. lia.
Qed.

Lemma batch_loop_invariant (fuel : nat) (filenames : list (list N)) :
  forall (done : nat) (result : Batch) (existing_slugs : list (list N)),
  (done + length filenames <= fuel)%nat ->
  batch_invariant done result existing_slugs ->
  exists result' existing_slugs',
    batch_loop normalize_NFD category_is_Mn lower fuel (result, existing_slugs) filenames
    = Some (result', existing_slugs')
    /\ stats_total (stats result') = stats_total (stats result)
    /\ batch_invariant (done + length filenames) result' existing_slugs'.
Proof.
  induction filenames as [|filename rest IH]; intros done result existing_slugs Hfuel Hinv.
  - exists result, existing_slugs. rewrite Nat.add_0_r. auto.
  - cbn [length] in Hfuel.
    destruct (batch_step_invariant fuel done result existing_slugs filename)
      as (result1 & existing1 & Hstep & Htotal1 & Hinv1); [lia | exact Hinv |].
    destruct (IH (S done) result1 existing1) as (result2 & existing2 & Hloop & Htotal2 & Hinv2);
      [lia | exact Hinv1 |].
    exists result2, existing2. cbn [batch_loop]. rewrite Hstep. cbn [mbind option_bind].
    split; [exact Hloop |]. split; [congruence |].
    cbn [length]. rewrite Nat.add_succ_r. exact Hinv2.
Qed.

(** X20.  With rounds enough for every loop, as many as there are file names,
    [batch_generate_slugs] returns; no slug is mapped to by two file names,
    every mapped slug passes [validate_slug], and the counters add up: the
    valid and the invalid make the total, and the duplicates are among the
    valid. *)
Theorem batch_slugs_are_distinct (fuel : nat) (filenames : list (list N)) :
  (length filenames <= fuel)%nat ->
  exists result,
    batch_generate_slugs normalize_NFD category_is_Mn lower fuel filenames = Some result
    /\ (forall filename1 filename2 slug,
          mappings result !! filename1 = Some slug ->
          mappings result !! filename2 = Some slug -> filename1 = filename2)
    /\ (forall filename slug,
          mappings result !! filename = Some slug ->
          valid (validate_slug slug) = true)
    /\ stats_total (stats result) = Z.of_nat (length filenames)
    /\ (stats_valid (stats result) + stats_invalid (stats result)
        = stats_total (stats result))%Z
    /\ stats_invalid (stats result) = Z.of_nat (length (invalid_slugs result))
    /\ stats_duplicates (stats result) = Z.of_nat (length (duplicates_found result))
    /\ (stats_duplicates (stats result) <= stats_valid (stats result))%Z.
Proof.
  intros Hfuel. unfold batch_generate_slugs.
  match goal with |- context [batch_loop _ _ _ _ (?r, [])] => set (result0 := r) end.
  destruct (batch_loop_invariant fuel filenames 0 result0 [])
    as (result & existing_slugs & Hloop & Htotal & Hinv); [cbn; lia | |].
  { split; cbn; try lia; try (intros ? ?; rewrite lookup_empty; discriminate);
      try (split; [lia | reflexivity]). }
  exists result. rewrite Hloop. cbn. destruct Hinv as [_ Hd Hv Hc Hp Hdup _].
  split; [reflexivity |]. split; [exact Hd |]. split; [exact Hv |].
  split; [exact Htotal |]. rewrite Htotal. cbn in Hc |- *.
  split; [lia |]. split; [apply Hp |]. split; apply Hdup.
Qed.

End Batch.

(** Three slugs taken, "abc" among them. *)
Lemma unique_slug_is_new_witness :
  exists slug,
    generate_unique_slug Scenario.plain_NFD Scenario.plain_is_Mn Scenario.plain_lower
      4 (codes "abc.png") [codes "abc"; codes "abc-2"; codes "abc-4"] = Some slug
    /\ (slug ∉ [codes "abc"; codes "abc-2"; codes "abc-4"]).
Proof.
  destruct (unique_slug_is_new Scenario.plain_NFD Scenario.plain_is_Mn
              Scenario.plain_lower 4 (codes "abc.png")
              [codes "abc"; codes "abc-2"; codes "abc-4"])
    as (slug & Hrun & Hnew & _); [cbn; lia |].
  exists slug. split; [exact Hrun | exact Hnew].
Defined.

(** Two files of one name and a third. *)
Lemma batch_slugs_are_distinct_witness :
  exists result,
    batch_generate_slugs Scenario.plain_NFD Scenario.plain_is_Mn Scenario.plain_lower
      3 [codes "abc.png"; codes "abc.jpg"; codes "x.png"] = Some result
    /\ (stats_valid (stats result) + stats_invalid (stats result) = 3)%Z.
Proof.
  destruct (batch_slugs_are_distinct Scenario.plain_NFD Scenario.plain_is_Mn
              Scenario.plain_lower 3 [codes "abc.png"; codes "abc.jpg"; codes "x.png"])
    as (result & Hrun & _ & _ & Htotal & Hsum & _); [cbn; lia |].
  exists result. split; [exact Hrun |]. rewrite Hsum, Htotal. reflexivity.
Defined.

End SlugProps.

(** ** Title file names *)

Module TitleNames.
Import TextUtils SlugProps TitleFiles.

Lemma list_ascii_of_string_app (a b : string) :
  list_ascii_of_string (a +:+ b)
  = (list_ascii_of_string a ++ list_ascii_of_string b)%list.
Proof.
  induction a as [|c a IH]; [reflexivity |].
  change (c :: list_ascii_of_string (a +:+ b)
          = c :: (list_ascii_of_string a ++ list_ascii_of_string b))%list.
  rewrite IH. reflexivity.
Qed.

Lemma string_app_inv_tail (a b suffix : string) :
  a +:+ suffix = b +:+ suffix -> a = b.
Proof.
  intros H. apply (f_equal list_ascii_of_string) in H.
  rewrite !list_ascii_of_string_app in H. apply app_inv_tail in H.
  rewrite <- (string_of_list_ascii_of_string a), <- (string_of_list_ascii_of_string b).
  rewrite H. reflexivity.
Qed.

(** Whatever the directory and the stem, the joined path ends with the
    file name's suffix. *)
Lemma os_path_join_suffix (dir stem suffix : string) :
  exists pre, os_path_join dir (stem +:+ suffix) = pre +:+ suffix.
Proof.
  unfold os_path_join. destruct (starts_with_sep (stem +:+ suffix)); [eauto |].
  destruct (String.eqb dir "" || ends_with_sep dir).
  - exists (dir +:+ stem). apply eq_sym, ComposerVariants.string_app_assoc.
  - exists (dir +:+ "/" +:+ stem). rewrite !ComposerVariants.string_app_assoc.
    reflexivity.
Qed.

Lemma dark_is_not_light (a b : string) :
  a +:+ "_title_dark.png" <> b +:+ "_title_light.png".
Proof.
  intros H. apply (f_equal list_ascii_of_string) in H.
  rewrite !list_ascii_of_string_app in H.
  apply (f_equal (@rev ascii)) in H. rewrite !rev_app_distr in H.
  cbn in H. discriminate H.
Qed.

Lemma path_of_inj (s t : list N) :
  Forall (fun c => (c < 256)%N) s -> Forall (fun c => (c < 256)%N) t ->
  path_of s = path_of t -> s = t.
Proof.
  unfold path_of. intros Hs Ht H.
  apply (f_equal list_ascii_of_string) in H.
  rewrite !list_ascii_of_string_of_list_ascii in H.
  revert t Ht H. induction Hs as [|c s Hc _ IH]; intros t Ht H.
  - destruct t; [reflexivity | discriminate H].
  - destruct Ht as [|d t Hd Ht]; [discriminate H |].
    cbn [map] in H. injection H as Hcd Hst.
    apply (f_equal N_of_ascii) in Hcd. rewrite !N_ascii_embedding in Hcd by assumption.
    rewrite Hcd, (IH t Ht Hst). reflexivity.
Qed.

Lemma slug_char_ascii (c : N) : slug_char c = true -> (c < 128)%N.
Proof.
  unfold slug_char, is_lower, is_digit, is_hyphen, hyphen.
  rewrite !orb_true_iff, !andb_true_iff, !N.leb_le, N.eqb_eq. lia.
Qed.

Lemma slug_char_not_sep (c : N) : slug_char c = true -> is_sep (ascii_of_N c) = false.
Proof.
  intros Hc. unfold is_sep. apply Ascii.eqb_neq. intros H.
  apply (f_equal N_of_ascii) in H.
  rewrite N_ascii_embedding in H by (apply slug_char_ascii in Hc; lia).
  cbn in H. subst c. discriminate Hc.
Qed.

Section Names.

Variable normalize_NFD : list N -> list N.
Variable category_is_Mn : N -> bool.
Variable lower : list N -> list N.

Local Abbreviation slug_of :=
  (generate_kebab_slug normalize_NFD category_is_Mn lower).

(** A generated slug puts its file directly under the directory. *)
Lemma generated_stem_joins (filename : list N) (dir rest : string) :
  os_path_join dir (path_of (slug_of filename) +:+ String "_" rest)
  = (if String.eqb dir "" || ends_with_sep dir then dir else dir +:+ "/")
    +:+ (path_of (slug_of filename) +:+ String "_" rest).
Proof.
  assert (Hsep : starts_with_sep (path_of (slug_of filename) +:+ String "_" rest)
                 = false).
  { rewrite ComposerVariants.starts_with_sep_underscore.
    pose proof (kebab_chars normalize_NFD category_is_Mn lower filename) as Hchars.
    destruct (slug_of filename) as [|c s]; [reflexivity |].
    apply Forall_cons in Hchars as [Hc _]. apply slug_char_not_sep, Hc. }
  unfold os_path_join. rewrite Hsep.
  destruct (String.eqb dir "" || ends_with_sep dir); [reflexivity |].
  rewrite ComposerVariants.string_app_assoc. reflexivity.
Qed.

(** X21.  No title file is written twice.  The dark raster of one title and
    the light raster of another never share a path, whatever the slugs and
    directories; and in one directory the rasters of two generated slugs
    share a path only when the slugs are equal. *)
Theorem title_files_do_not_collide (filename1 filename2 : list N)
    (output_dir : string) :
  let stem1 := path_of (slug_of filename1) in
  let stem2 := path_of (slug_of filename2) in
  (forall slug1 slug2 dir1 dir2 : string,
     fst (get_title_file_paths slug1 dir1) <> snd (get_title_file_paths slug2 dir2))
  /\ (fst (get_title_file_paths stem1 output_dir)
      = fst (get_title_file_paths stem2 output_dir) ->
      slug_of filename1 = slug_of filename2)
  /\ (snd (get_title_file_paths stem1 output_dir)
      = snd (get_title_file_paths stem2 output_dir) ->
      slug_of filename1 = slug_of filename2).
Proof.
  intros stem1 stem2.
  assert (Hinj : forall rest,
            os_path_join output_dir (stem1 +:+ String "_" rest)
            = os_path_join output_dir (stem2 +:+ String "_" rest) ->
            slug_of filename1 = slug_of filename2).
  { intros rest H. unfold stem1, stem2 in H.
    rewrite !generated_stem_joins in H.
    apply String.app_inj, string_app_inv_tail in H.
    apply path_of_inj in H; [exact H | |];
      (eapply Forall_impl; [apply kebab_chars |]);
      intros c Hc; apply slug_char_ascii in Hc; lia. }
  split; [| split].
  - intros slug1 slug2 dir1 dir2. unfold get_title_file_paths. cbn [fst snd].
    destruct (os_path_join_suffix dir1 slug1 "_title_dark.png") as [pre1 ->].
    destruct (os_path_join_suffix dir2 slug2 "_title_light.png") as [pre2 ->].
    apply dark_is_not_light.
  - unfold get_title_file_paths. cbn [fst snd]. apply Hinj.
  - unfold get_title_file_paths. cbn [fst snd]. apply Hinj.
Qed.

End Names.

End TitleNames.
